(** * entangled.loom.lazy: lazy tasks, memoised results and the task registry

    A shallow embedding of [src/entangled/loom/lazy.py].

    Python objects live in a heap ([list Lazy], a reference is a position);
    the registry [LazyDB] holds references.  The coroutines of the module
    ([LazyDB.run], [Lazy.run_cached], [Lazy.run_after_deps]) are embedded as a
    transition system over the event loop's pool of coroutines: one
    transition is the code that runs between two suspension points
    ([async with self._lock], [await asyncio.gather(...)], [await self.run(...)]).
    The scheduler's decisions are the [Event]s, so every interleaving the
    event loop can produce is a list of events.

    What is assumed of the collaborators: the body of [run] acts on the
    outside world only (it does not touch the cells, the locks or the
    registry), and an [on_missing] that returns a task constructs it.

    What the embedding leaves out: the events are the scheduler's choices
    and the calls of the module's own operations, so a coroutine is never
    cancelled from outside (the module cancels nothing itself; a
    cancellation would leave [async with] like any exception that is not
    caught); and the body of [run] is one function of the world, applied
    when the body ends, so what a body that suspends does to the world
    before its end is not followed.

    Layout: the embedding, then concrete task graphs, then the properties
    for every graph, then the concrete graphs checked by evaluation. *)

From stdpp Require Import base option list gmap strings.

#[local] Set Warnings "-register-all".

(** A reference to a task object: its position in the heap. *)
Abbreviation ref := nat.

Section Loom.

(** [T]: identifiers; [R]: values; [A]: the caller's [*args]; [E]: exceptions
    other than [TaskFailure] and [MissingDependency]; [W]: whatever the
    collaborators' [run] bodies read and write outside the engine. *)
Context {T : Type} `{Countable T}.
Context {R A E W : Type}.

(** ** Outcomes (lines 23-57) *)

(** [Failure] and its subclasses, and [Ok].  [MissingFailure(t)] carries the
    identifier, [DependencyFailure(self, ...)] and [Ok(self, ...)] carry the
    task object. *)
Inductive Result : Type :=
| Ok (task : ref) (value : R)
| MissingFailure (task : T)
| TaskFailure (task : T) (message : string)
| DependencyFailure (task : ref) (dependent : list Result).

(** [Failure.__bool__] is [False], [Ok.__bool__] is [True]. *)
Definition Result_bool (r : Result) : bool :=
  match r with
  | Ok _ _ => true
  | _ => false
  end.

(** How an invocation of a task's [run] ends. *)
Inductive RunOutcome : Type :=
| Return (value : R)
| RaiseTaskFailure (task : T) (message : string)
| RaiseOther (e : E).

(** ** Tasks (lines 60-115) *)

(** [run] is the abstract method: a collaborator's body, receiving [*args]
    and acting on the outside world only. [_lock] is the state of the
    [asyncio.Lock] (held or free). *)
Record Lazy : Type := mkLazy {
  targets : list T;
  dependencies : list T;
  _lock : bool;
  _result : option Result;
  run : list A → W → RunOutcome * W
}.

(** The dataclass constructor: [_lock] and [_result] are [init=False]. *)
Definition Lazy_init (tg dp : list T) (body : list A → W → RunOutcome * W) : Lazy :=
  {| targets := tg; dependencies := dp; _lock := false; _result := None; run := body |}.

Definition set_result (o : option Result) (l : Lazy) : Lazy :=
  {| targets := targets l; dependencies := dependencies l;
     _lock := _lock l; _result := o; run := run l |}.

Definition set_lock (b : bool) (l : Lazy) : Lazy :=
  {| targets := targets l; dependencies := dependencies l;
     _lock := b; _result := _result l; run := run l |}.

(** [Lazy.__bool__] (line 83). *)
Definition Lazy_bool (l : Lazy) : bool :=
  match _result l with
  | Some r => Result_bool r
  | None => false
  end.

(** The [result] property (lines 86-92): what the access does. *)
Inductive Access : Type :=
| Value (v : R)
| ValueError (msg : string)
| AssertionError.

Definition result (l : Lazy) : Access :=
  match _result l with
  | None => ValueError "Task has not run yet."
  | Some r =>
      if negb (Result_bool r) then ValueError "Task has failed."
      else match r with
           | Ok _ v => Value v
           | _ => AssertionError
           end
  end.

(** [Lazy.reset] (line 115). *)
Definition Lazy_reset (l : Lazy) : Lazy := set_result None l.

(** The part of [run_after_deps] after [gather] has returned and before
    [run] is awaited (lines 99-100): [Some f] is the early return. *)
Definition deps_failure (self : ref) (dep_res : list Result) : option Result :=
  if negb (forallb Result_bool dep_res)
  then Some (DependencyFailure self (filter (λ f, negb (Result_bool f)) dep_res))
  else None.

(** The [try] block of [run_after_deps] (lines 101-105): the value [run]
    returned is wrapped, a [TaskFailure] is caught and returned, anything
    else escapes. *)
Definition run_handler (self : ref) (out : RunOutcome) : Result + E :=
  match out with
  | Return v => inl (Ok self v)
  | RaiseTaskFailure t m => inl (TaskFailure t m)
  | RaiseOther e => inr e
  end.

(** ** The registry (lines 125-157) *)

(** What the overridable hook [on_missing] does: the default raises
    [MissingDependency]; an override constructs the task to resolve. *)
Inductive OnMissing : Type :=
| RaiseMissingDependency
| ReturnTask (tg dp : list T) (body : list A → W → RunOutcome * W).

Record LazyDB : Type := mkLazyDB {
  tasks : list ref;
  index : gmap T ref;
  on_missing : T → OnMissing
}.

(** Line 143. *)
Definition on_missing_default : T → OnMissing := λ _, RaiseMissingDependency.

(** ** Coroutines *)

(** Where a coroutine started by [LazyDB.run(t, *args)] stands. *)
Inductive PC : Type :=
| AtRun                                       (* LazyDB.run entered, line 133 *)
| AtLock (task : ref)                         (* run_cached: async with self._lock, line 108 *)
| AtGather (task : ref) (children : list nat) (* run_after_deps: await gather, line 98 *)
| AtTaskRun (task : ref)                      (* run_after_deps: await self.run, line 102 *)
| Returned (r : Result)
| Raised (e : E).

(** The frame of the coroutine: its parameters and its position. *)
Record Job : Type := mkJob {
  jt : T;
  jargs : list A;
  pc : PC
}.

Definition set_pc (p : PC) (job : Job) : Job :=
  {| jt := jt job; jargs := jargs job; pc := p |}.

Record State : Type := mkState {
  heap : list Lazy;
  db : LazyDB;
  world : W;
  jobs : list Job
}.

Definition set_heap (h : list Lazy) (s : State) : State :=
  {| heap := h; db := db s; world := world s; jobs := jobs s |}.
Definition set_db (d : LazyDB) (s : State) : State :=
  {| heap := heap s; db := d; world := world s; jobs := jobs s |}.
Definition set_world (w : W) (s : State) : State :=
  {| heap := heap s; db := db s; world := w; jobs := jobs s |}.
Definition set_jobs (js : list Job) (s : State) : State :=
  {| heap := heap s; db := db s; world := world s; jobs := js |}.

(** ** Registry operations that are not coroutines *)

(** [LazyDB.add] (lines 145-149). *)
Definition index_targets (task : ref) (tg : list T) (idx : gmap T ref) : gmap T ref :=
  foldl (λ i target, <[target := task]> i) idx tg.

Definition LazyDB_add (task : ref) (s : State) : option State :=
  l ← heap s !! task;
  Some (set_db {| tasks := tasks (db s) ++ [task];
                  index := index_targets task (targets l) (index (db s));
                  on_missing := on_missing (db s) |} s).

(** [LazyDB.clean] (lines 151-153). *)
Definition LazyDB_clean (s : State) : State :=
  set_db {| tasks := []; index := ∅; on_missing := on_missing (db s) |} s.

(** [LazyDB.reset] (lines 155-157). *)
Definition reset_at (h : list Lazy) (t : ref) : list Lazy :=
  match h !! t with
  | Some l => <[t := Lazy_reset l]> h
  | None => h
  end.

Definition LazyDB_reset (s : State) : State :=
  set_heap (foldl reset_at (heap s) (tasks (db s))) s.

(** ** The transition system *)

(** The scheduler's decisions, and what the collaborators do from outside. *)
Inductive Event : Type :=
| Call (t : T) (args : list A)   (* a caller awaits db.run(t, *args) *)
| Advance (j : nat)              (* the loop resumes coroutine j *)
| Propagate (j k : nat)          (* gather of coroutine j re-raises what child k raised *)
| NewTask (tg dp : list T) (body : list A → W → RunOutcome * W)  (* a task is constructed *)
| DbAdd (task : ref)             (* db.add(task) *)
| DbClean                        (* db.clean() *)
| DbReset                        (* db.reset() *)
| TaskReset (task : ref).        (* task.reset() *)

(** What a transition lets an observer see of the [run] bodies. *)
Inductive Label : Type :=
| Tau
| RunStart (task : ref)
| RunEnd (task : ref) (out : RunOutcome).

Definition move (j : nat) (job : Job) (p : PC) (s : State) : State :=
  set_jobs (<[j := set_pc p job]> (jobs s)) s.

(** [LazyDB.run] up to the call of [run_cached] (lines 133-140). *)
Definition LazyDB_run (j : nat) (job : Job) (s : State) : State :=
  match index (db s) !! jt job with
  | Some task => move j job (AtLock task) s
  | None =>
      match on_missing (db s) (jt job) with
      | RaiseMissingDependency => move j job (Returned (MissingFailure (jt job))) s
      | ReturnTask tg dp body =>
          move j job (AtLock (length (heap s)))
            (set_heap (heap s ++ [Lazy_init tg dp body]) s)
      end
  end.

(** [recurse(dep) for dep in self.dependencies] (line 98): one coroutine
    [LazyDB.run(dep)] per dependency, without [*args]. *)
Definition spawn (deps : list T) : list Job :=
  map (λ dep, mkJob dep [] AtRun) deps.

(** [run_cached] from the lock to the first suspension (lines 108-111 and
    98): blocked while the lock is held; a filled cell is returned and the
    lock released at once; otherwise the lock stays held and the
    dependencies are gathered. *)
Definition run_cached (j : nat) (job : Job) (task : ref) (s : State) : option State :=
  l ← heap s !! task;
  if _lock l then None
  else match _result l with
       | Some r => Some (move j job (Returned r) s)
       | None =>
           let children := seq (length (jobs s)) (length (dependencies l)) in
           let s1 := set_heap (<[task := set_lock true l]> (heap s)) s in
           let s2 := move j job (AtGather task children) s1 in
           Some (set_jobs (jobs s2 ++ spawn (dependencies l)) s2)
       end.

(** [self._result = ...; return self._result] and the end of [async with]
    (lines 111-112). *)
Definition store_release (j : nat) (job : Job) (task : ref) (l : Lazy)
    (r : Result) (s : State) : State :=
  move j job (Returned r)
    (set_heap (<[task := set_lock false (set_result (Some r) l)]> (heap s)) s).

(** An exception leaves [run_cached] through [async with]: the lock is
    released, the cell is not assigned. *)
Definition raise_release (j : nat) (job : Job) (task : ref) (l : Lazy)
    (e : E) (s : State) : State :=
  move j job (Raised e)
    (set_heap (<[task := set_lock false l]> (heap s)) s).

(** The value of a finished child of [gather]. *)
Definition job_result (js : list Job) (k : nat) : option Result :=
  match js !! k with
  | Some job => match pc job with Returned r => Some r | _ => None end
  | None => None
  end.

Definition job_raised (js : list Job) (k : nat) : option E :=
  match js !! k with
  | Some job => match pc job with Raised e => Some e | _ => None end
  | None => None
  end.

(** [run_after_deps] once every child of [gather] has returned (lines
    98-102). *)
Definition run_after_deps (j : nat) (job : Job) (task : ref) (children : list nat)
    (s : State) : option (Label * State) :=
  l ← heap s !! task;
  dep_res ← mapM (job_result (jobs s)) children;
  match deps_failure task dep_res with
  | Some f => Some (Tau, store_release j job task l f s)
  | None => Some (RunStart task, move j job (AtTaskRun task) s)
  end.

(** The body of [run] completes (lines 102-105, then 111-112). *)
Definition run_ended (j : nat) (job : Job) (task : ref) (s : State)
    : option (Label * State) :=
  l ← heap s !! task;
  let '(out, w) := run l (jargs job) (world s) in
  Some (RunEnd task out,
        match run_handler task out with
        | inl r => store_release j job task l r (set_world w s)
        | inr e => raise_release j job task l e (set_world w s)
        end).

(** [gather] re-raises the exception of a child (line 98); it is caught
    nowhere on the way out of [run_after_deps] and [run_cached]. *)
Definition gather_raised (j k : nat) (s : State) : option State :=
  job ← jobs s !! j;
  match pc job with
  | AtGather task children =>
      if bool_decide (k ∈ children) then
        e ← job_raised (jobs s) k;
        l ← heap s !! task;
        Some (raise_release j job task l e s)
      else None
  | _ => None
  end.

Definition advance (j : nat) (s : State) : option (Label * State) :=
  job ← jobs s !! j;
  match pc job with
  | AtRun => Some (Tau, LazyDB_run j job s)
  | AtLock task => s' ← run_cached j job task s; Some (Tau, s')
  | AtGather task children => run_after_deps j job task children s
  | AtTaskRun task => run_ended j job task s
  | Returned _ | Raised _ => None
  end.

Definition step (ev : Event) (s : State) : option (Label * State) :=
  match ev with
  | Call t args => Some (Tau, set_jobs (jobs s ++ [mkJob t args AtRun]) s)
  | Advance j => advance j s
  | Propagate j k => s' ← gather_raised j k s; Some (Tau, s')
  | NewTask tg dp body => Some (Tau, set_heap (heap s ++ [Lazy_init tg dp body]) s)
  | DbAdd task => s' ← LazyDB_add task s; Some (Tau, s')
  | DbClean => Some (Tau, LazyDB_clean s)
  | DbReset => Some (Tau, LazyDB_reset s)
  | TaskReset task => Some (Tau, set_heap (reset_at (heap s) task) s)
  end.

(** A schedule, run from [s]: the labels seen and the state reached. *)
Fixpoint exec (evs : list Event) (s : State) : option (list Label * State) :=
  match evs with
  | [] => Some ([], s)
  | ev :: evs' =>
      '(lab, s1) ← step ev s;
      '(labs, s2) ← exec evs' s1;
      Some (lab :: labs, s2)
  end.

(** ** The transitions, one by one *)

(** The same transition system as a relation: one rule per path through
    the code between two suspension points. [step_cases] below shows that
    it is [step]. *)
Inductive Step (s : State) : Event → Label → State → Prop :=
| Step_call t args :
    Step s (Call t args) Tau (set_jobs (jobs s ++ [mkJob t args AtRun]) s)
| Step_found j job task :                       (* lines 138-140 *)
    jobs s !! j = Some job → pc job = AtRun →
    index (db s) !! jt job = Some task →
    Step s (Advance j) Tau (move j job (AtLock task) s)
| Step_missing j job :                          (* lines 133-137 *)
    jobs s !! j = Some job → pc job = AtRun →
    index (db s) !! jt job = None →
    on_missing (db s) (jt job) = RaiseMissingDependency →
    Step s (Advance j) Tau (move j job (Returned (MissingFailure (jt job))) s)
| Step_synthesized j job tg dp body :           (* lines 133-135, 140 *)
    jobs s !! j = Some job → pc job = AtRun →
    index (db s) !! jt job = None →
    on_missing (db s) (jt job) = ReturnTask tg dp body →
    Step s (Advance j) Tau
      (move j job (AtLock (length (heap s)))
         (set_heap (heap s ++ [Lazy_init tg dp body]) s))
| Step_cached j job task l r :                  (* lines 108-110 *)
    jobs s !! j = Some job → pc job = AtLock task →
    heap s !! task = Some l → _lock l = false → _result l = Some r →
    Step s (Advance j) Tau (move j job (Returned r) s)
| Step_acquire j job task l :                   (* lines 108-111, 98 *)
    jobs s !! j = Some job → pc job = AtLock task →
    heap s !! task = Some l → _lock l = false → _result l = None →
    Step s (Advance j) Tau
      (set_jobs
         (<[j := set_pc (AtGather task
                   (seq (length (jobs s)) (length (dependencies l)))) job]>
            (jobs s) ++ spawn (dependencies l))
         (set_heap (<[task := set_lock true l]> (heap s)) s))
| Step_deps_failed j job task children l dep_res f :  (* lines 98-100, 111-112 *)
    jobs s !! j = Some job → pc job = AtGather task children →
    heap s !! task = Some l →
    mapM (job_result (jobs s)) children = Some dep_res →
    deps_failure task dep_res = Some f →
    Step s (Advance j) Tau (store_release j job task l f s)
| Step_run_start j job task children l dep_res :      (* lines 98-102 *)
    jobs s !! j = Some job → pc job = AtGather task children →
    heap s !! task = Some l →
    mapM (job_result (jobs s)) children = Some dep_res →
    deps_failure task dep_res = None →
    Step s (Advance j) (RunStart task) (move j job (AtTaskRun task) s)
| Step_run_stored j job task l out w r :        (* lines 102-105, 111-112 *)
    jobs s !! j = Some job → pc job = AtTaskRun task →
    heap s !! task = Some l →
    run l (jargs job) (world s) = (out, w) →
    run_handler task out = inl r →
    Step s (Advance j) (RunEnd task out)
      (store_release j job task l r (set_world w s))
| Step_run_raised j job task l out w e :        (* line 102, nothing caught *)
    jobs s !! j = Some job → pc job = AtTaskRun task →
    heap s !! task = Some l →
    run l (jargs job) (world s) = (out, w) →
    run_handler task out = inr e →
    Step s (Advance j) (RunEnd task out)
      (raise_release j job task l e (set_world w s))
| Step_gather_raised j k job task children l e : (* line 98, nothing caught *)
    jobs s !! j = Some job → pc job = AtGather task children →
    k ∈ children → job_raised (jobs s) k = Some e →
    heap s !! task = Some l →
    Step s (Propagate j k) Tau (raise_release j job task l e s)
| Step_new tg dp body :
    Step s (NewTask tg dp body) Tau
      (set_heap (heap s ++ [Lazy_init tg dp body]) s)
| Step_add task s' :
    LazyDB_add task s = Some s' → Step s (DbAdd task) Tau s'
| Step_clean : Step s DbClean Tau (LazyDB_clean s)
| Step_reset : Step s DbReset Tau (LazyDB_reset s)
| Step_task_reset task :
    Step s (TaskReset task) Tau (set_heap (reset_at (heap s) task) s).

(** ** Invariant of the event loop *)

(** Coroutine [job] is inside [async with self._lock] of [task]. *)
Definition holds (task : ref) (job : Job) : Prop :=
  match pc job with
  | AtGather t _ | AtTaskRun t => t = task
  | _ => False
  end.

(** The events that end a generation of [task]: the explicit resets. *)
Definition clears (task : ref) (ev : Event) : bool :=
  match ev with
  | DbReset => true
  | TaskReset t => bool_decide (t = task)
  | _ => false
  end.

(** What holds of every state the event loop reaches ([Inv_init],
    [Inv_step]). *)
Record Inv (s : State) : Prop := mkInv {
  (* whoever is inside the lock of a task has the lock *)
  inv_holder : ∀ j job task,
    jobs s !! j = Some job → holds task job →
    ∃ l, heap s !! task = Some l ∧ _lock l = true;
  (* and is alone there *)
  inv_unique : ∀ j1 j2 job1 job2 task,
    jobs s !! j1 = Some job1 → jobs s !! j2 = Some job2 →
    holds task job1 → holds task job2 → j1 = j2;
  (* the cell of a task is empty while its lock is held *)
  inv_locked : ∀ task l,
    heap s !! task = Some l → _lock l = true → _result l = None;
  (* the children of a gather resolve the dependencies, in order *)
  inv_children : ∀ j job task children,
    jobs s !! j = Some job → pc job = AtGather task children →
    ∃ l, heap s !! task = Some l ∧
      Forall2 (λ c dep, ∃ cj, jobs s !! c = Some cj ∧ jt cj = dep)
        children (dependencies l);
  (* the registry refers to objects that exist *)
  inv_tasks : ∀ task, task ∈ tasks (db s) → task < length (heap s);
  inv_index : ∀ t task, index (db s) !! t = Some task → task < length (heap s)
}.

(** The state before anything was constructed or called. *)
Definition init (hook : T → OnMissing) (w : W) : State :=
  {| heap := []; db := {| tasks := []; index := ∅; on_missing := hook |};
     world := w; jobs := [] |}.

(** [isinstance(r, Failure)]. *)
Definition is_Failure (r : Result) : Prop :=
  match r with
  | Ok _ _ => False
  | _ => True
  end.

(** Children keep resolving the same identifiers when coroutines only
    advance and new ones are appended. *)
Definition jobs_ext (js js' : list Job) : Prop :=
  ∀ c cj, js !! c = Some cj → ∃ cj', js' !! c = Some cj' ∧ jt cj' = jt cj.

(** Objects are never removed from the heap and keep their dependencies. *)
Definition heap_ext (h h' : list Lazy) : Prop :=
  ∀ r l, h !! r = Some l →
    ∃ l', h' !! r = Some l' ∧ dependencies l' = dependencies l.

(** The positions that are inside no lock. *)
Definition outside (p : PC) : Prop :=
  match p with
  | AtGather _ _ | AtTaskRun _ => False
  | _ => True
  end.

#[global] Instance is_Failure_dec (r : Result) : Decision (is_Failure r).
Proof. destruct r; cbn; apply _. Defined.

(** ** Executions of [run], as seen on a state and on a trace *)

(** The cell of [task] holds an outcome. *)
Definition settled (task : ref) (s : State) : Prop :=
  ∃ l o, heap s !! task = Some l ∧ _result l = Some o.

(** A coroutine is inside the body of [run] of [task]. *)
Definition running (task : ref) (s : State) : Prop :=
  ∃ j job, jobs s !! j = Some job ∧ pc job = AtTaskRun task.

Definition busy (task : ref) (s : State) : Prop :=
  settled task s ∨ running task s.

Definition is_start (task : ref) (lab : Label) : bool :=
  match lab with
  | RunStart t => bool_decide (t = task)
  | _ => false
  end.

(** [run] of [task] ended by raising something that is not caught. *)
Definition is_defect (task : ref) (lab : Label) : bool :=
  match lab with
  | RunEnd t (RaiseOther _) => bool_decide (t = task)
  | _ => false
  end.

Fixpoint count (f : Label → bool) (labs : list Label) : nat :=
  match labs with
  | [] => 0
  | lab :: labs' => (if f lab then 1 else 0) + count f labs'
  end.

(** No two coroutines are inside [run] of the same task. *)
Definition exclusive (s : State) : Prop :=
  ∀ j1 j2 job1 job2 task,
    jobs s !! j1 = Some job1 → jobs s !! j2 = Some job2 →
    pc job1 = AtTaskRun task → pc job2 = AtTaskRun task → j1 = j2.

(** "[run] is executed at most once as long as the task is not reset",
    for the executions from [s]. *)
Definition at_most_once (s : State) : Prop :=
  ∀ evs labs s' task,
    exec evs s = Some (labs, s') →
    Forall (λ ev, clears task ev = false) evs →
    count (is_start task) labs ≤ 1.

(** What a schedule yields, as functions. *)
Definition labels_of (evs : list Event) (s : State) : list Label :=
  match exec evs s with
  | Some (labs, _) => labs
  | None => []
  end.

Definition state_of (evs : list Event) (s : State) : State :=
  match exec evs s with
  | Some (_, s') => s'
  | None => s
  end.

(** ** More about the states the event loop reaches *)

(** A transition that edits the registry: [add] or [clean]. *)
Definition registers (ev : Event) : bool :=
  match ev with
  | DbAdd _ | DbClean => true
  | _ => false
  end.

(** The coroutine has returned or raised. *)
Definition finished (job : Job) : Prop :=
  match pc job with
  | Returned _ | Raised _ => True
  | _ => False
  end.

(** Every lock that is held is held by a coroutine. *)
Definition locks_owned (s : State) : Prop :=
  ∀ task l, heap s !! task = Some l → _lock l = true →
    ∃ j job, jobs s !! j = Some job ∧ holds task job.

(** The outcomes [run_cached] of [task] can store: [Ok] of the task
    itself, a [TaskFailure] of its [run], or a [DependencyFailure] of the
    task itself with at least one failure and only failures. *)
Definition own_outcome (task : ref) (r : Result) : Prop :=
  match r with
  | Ok t _ => t = task
  | MissingFailure _ => False
  | TaskFailure _ _ => True
  | DependencyFailure t fs => t = task ∧ fs ≠ [] ∧ Forall is_Failure fs
  end.

Definition cells_own (s : State) : Prop :=
  ∀ task l r, heap s !! task = Some l → _result l = Some r →
    own_outcome task r.

(** The children of every [gather] were called without [*args]. *)
Definition children_bare (s : State) : Prop :=
  ∀ j job task children c,
    jobs s !! j = Some job → pc job = AtGather task children →
    c ∈ children → ∃ cj, jobs s !! c = Some cj ∧ jargs cj = [].

(** Coroutine [j] holds the lock of [task] and awaits children that all
    wait for that very lock. *)
Definition waits_on_itself (j : nat) (task : ref) (s : State) : Prop :=
  ∃ job children,
    jobs s !! j = Some job ∧ pc job = AtGather task children
    ∧ children ≠ []
    ∧ ∀ c, c ∈ children → ∃ cj, jobs s !! c = Some cj ∧ pc cj = AtLock task.

End Loom.

(** * Concrete graphs

    Identifiers, values, arguments and exceptions are numbers; the world is
    a counter that every [run] body increments. *)

Definition DState : Type := State (T:=nat) (R:=nat) (A:=nat) (E:=nat) (W:=nat).
Definition DEvent : Type := Event (T:=nat) (R:=nat) (A:=nat) (E:=nat) (W:=nat).
Definition DLazy : Type := Lazy (T:=nat) (R:=nat) (A:=nat) (E:=nat) (W:=nat).
Definition DBody : Type :=
  list nat → nat → RunOutcome (T:=nat) (R:=nat) (E:=nat) * nat.

Definition returns (v : nat) : DBody := λ _ w, (Return v, S w).
Definition fails (t : nat) (m : string) : DBody :=
  λ _ w, (RaiseTaskFailure t m, S w).
Definition crashes (e : nat) : DBody := λ _ w, (RaiseOther e, S w).

Definition empty_registry : DState := init on_missing_default 0.

(** The diamond A -> {B, C}, B -> D, C -> D, with A, B, C, D being 0..3. *)
Definition diamond_setup : list DEvent :=
  [NewTask [0] [1; 2] (returns 10); NewTask [1] [3] (returns 11);
   NewTask [2] [3] (returns 12); NewTask [3] [] (returns 13);
   DbAdd 0; DbAdd 1; DbAdd 2; DbAdd 3].

(** The order in which the event loop runs [await db.run(0)]. *)
Definition diamond_schedule : list DEvent :=
  [Call 0 []; Advance 0; Advance 0; Advance 1; Advance 2; Advance 1;
   Advance 2; Advance 3; Advance 4; Advance 3; Advance 3; Advance 3;
   Advance 4; Advance 1; Advance 1; Advance 2; Advance 2; Advance 0;
   Advance 0].

Definition diamond_ready : DState := state_of diamond_setup empty_registry.
Definition diamond_done : DState := state_of diamond_schedule diamond_ready.

(** D once it has been resolved. *)
Definition D_resolved : DLazy := mkLazy [3] [] false (Some (Ok 3 13)) (returns 13).

(** The diamond with a D whose [run] raises [TaskFailure]. *)
Definition broken_setup : list DEvent :=
  [NewTask [0] [1; 2] (returns 10); NewTask [1] [3] (returns 11);
   NewTask [2] [3] (returns 12); NewTask [3] [] (fails 3 "x");
   DbAdd 0; DbAdd 1; DbAdd 2; DbAdd 3].

(** The schedule up to the point where D is resolved and B and C await
    their [gather]. *)
Definition D_finished : list DEvent := take 13 diamond_schedule.

Definition diamond_mid : DState := state_of D_finished diamond_ready.
Definition broken_mid : DState :=
  state_of D_finished (state_of broken_setup empty_registry).

Definition B_gathering : Job (T:=nat) (R:=nat) (A:=nat) (E:=nat) :=
  mkJob 1 [] (AtGather 1 [3]).
Definition B_locked : DLazy := mkLazy [1] [3] true None (returns 11).

(** The broken diamond to the end. *)
Definition broken_schedule : list DEvent :=
  D_finished ++ [Advance 1; Advance 2; Advance 0].

Definition broken_done : DState :=
  state_of broken_schedule (state_of broken_setup empty_registry).

(** A caller asks for 5, which nobody registered. *)
Definition asked_5 : DState := state_of [Call 5 []] empty_registry.
Definition run_5 : Job (T:=nat) (R:=nat) (A:=nat) (E:=nat) := mkJob 5 [] AtRun.

(** Two tasks that both declare target 1, not yet added. *)
Definition two_tasks : DState :=
  state_of [NewTask [0; 1] [] (returns 1); NewTask [1; 2] [] (returns 2)]
    empty_registry.

(** A task whose [run] raises something that is not a [TaskFailure], and
    two callers: the first is inside [run], the second waits for the
    lock. *)
Definition crash_setup : list DEvent :=
  [NewTask [0] [] (crashes 7); DbAdd 0].
Definition crash_running : DState :=
  state_of (crash_setup ++ [Call 0 []; Call 0 []; Advance 0; Advance 0;
                            Advance 0; Advance 1])
    empty_registry.
Definition crash_job : Job (T:=nat) (R:=nat) (A:=nat) (E:=nat) :=
  mkJob 0 [] (AtTaskRun 0).

(** A registry whose [on_missing] makes a leaf for every identifier. *)
Definition leaf_hook : nat → OnMissing (T:=nat) (R:=nat) (A:=nat) (E:=nat) (W:=nat) :=
  λ t, ReturnTask [t] [] (returns t).

Definition leaf_asked : DState := state_of [Call 5 [9]] (init leaf_hook 0).
Definition leaf_job : Job (T:=nat) (R:=nat) (A:=nat) (E:=nat) :=
  mkJob 5 [9] AtRun.

(** The two callers of the crashing task, one after the other. *)
Definition crash_twice : list DEvent :=
  crash_setup ++ [Call 0 []; Call 0 [];
                  Advance 0; Advance 0; Advance 0; Advance 0;
                  Advance 1; Advance 1; Advance 1; Advance 1].

(** A chain: task 0 depends on task 1, task 1 on task 2; the body of
    task 1 raises something that is not a [TaskFailure]. [chain_mid] is the
    state in which task 2 is resolved and the coroutines of 0 and 1 await
    their [gather]. *)
Definition chain_setup : list DEvent :=
  [NewTask [0] [1] (returns 10); NewTask [1] [2] (crashes 7);
   NewTask [2] [] (returns 12); DbAdd 0; DbAdd 1; DbAdd 2].
Definition chain_schedule : list DEvent :=
  [Call 0 []; Advance 0; Advance 0; Advance 1; Advance 1;
   Advance 2; Advance 2; Advance 2; Advance 2].
Definition chain_mid : DState :=
  state_of (chain_setup ++ chain_schedule) empty_registry.
Definition chain_middle : Job (T:=nat) (R:=nat) (A:=nat) (E:=nat) :=
  mkJob 1 [] (AtGather 1 [2]).
Definition chain_middle_locked : DLazy :=
  mkLazy [1] [2] true None (crashes 7).

(** A body that returns how many arguments it was given. *)
Definition counts_args : DBody := λ args w, (Return (length args), S w).

(** Task 0 depends on task 1; a caller passes two arguments. [args_mid] is
    the state in which 0 awaits [gather] and 1 is inside its body. *)
Definition args_setup : list DEvent :=
  [NewTask [0] [1] counts_args; NewTask [1] [] counts_args; DbAdd 0; DbAdd 1].
Definition args_schedule : list DEvent :=
  [Call 0 [7; 8]; Advance 0; Advance 0; Advance 1; Advance 1; Advance 1].
Definition args_mid : DState :=
  state_of (args_setup ++ args_schedule) empty_registry.

(** A task that lists its own target among its dependencies; the caller
    holds the lock and its child waits for it. *)
Definition selfdep_events : list DEvent :=
  [NewTask [0] [0] (returns 1); DbAdd 0; Call 0 []; Advance 0; Advance 0;
   Advance 1].
Definition selfdep_stuck : DState := state_of selfdep_events empty_registry.

(** A registered task without dependencies, not yet resolved. *)
Definition leaf_ready : DState :=
  state_of [NewTask [0] [] (returns 1); DbAdd 0] empty_registry.

(** The diamond when D has just been resolved for B and the coroutine of
    C's [gather] is about to enter [run_cached] of D. *)
Definition D_asked_again : DState :=
  state_of (take 12 diamond_schedule) diamond_ready.

(** A registered task whose dependency 9 nobody registered. *)
Definition orphan_ready : DState :=
  state_of [NewTask [0] [9] (returns 1); DbAdd 0] empty_registry.

(** * Properties *)

Section LoomFacts.

Context {T : Type} `{Countable T}.
Context {R A E W : Type}.

Local Abbreviation Result := (Result (T:=T) (R:=R)).
Local Abbreviation RunOutcome := (RunOutcome (T:=T) (R:=R) (E:=E)).
Local Abbreviation Lazy := (Lazy (T:=T) (R:=R) (A:=A) (E:=E) (W:=W)).
Local Abbreviation OnMissing := (OnMissing (T:=T) (R:=R) (A:=A) (E:=E) (W:=W)).
Local Abbreviation PC := (PC (T:=T) (R:=R) (E:=E)).
Local Abbreviation Job := (Job (T:=T) (R:=R) (A:=A) (E:=E)).
Local Abbreviation State := (State (T:=T) (R:=R) (A:=A) (E:=E) (W:=W)).
Local Abbreviation Event := (Event (T:=T) (R:=R) (A:=A) (E:=E) (W:=W)).
Local Abbreviation Label := (Label (T:=T) (R:=R) (E:=E)).

(** ** The relation [Step] is the function [step] *)

Lemma step_cases (s s' : State) (ev : Event) (lab : Label) :
  step ev s = Some (lab, s') ↔ Step s ev lab s'.
Proof.
  split.
  - destruct ev as [t args|j|j k|tg dp body|task| | |task]; cbn.
    + intros [= <- <-]. constructor.
    + unfold advance. destruct (jobs s !! j) as [job|] eqn:Hj; [|done]. cbn.
      destruct (pc job) as [|task|task children|task|?|?] eqn:Hpc; try done.
      * intros [= <- <-]. unfold LazyDB_run.
        destruct (index (db s) !! jt job) as [task|] eqn:Hidx.
        { by apply Step_found. }
        destruct (on_missing (db s) (jt job)) as [|tg dp body] eqn:Hhook.
        { by apply Step_missing. }
        by apply Step_synthesized.
      * unfold run_cached.
        destruct (heap s !! task) as [l|] eqn:Hl; [|done]. cbn.
        destruct (_lock l) eqn:Hlk; [done|].
        destruct (_result l) as [r|] eqn:Hr; cbn; intros [= <- <-].
        { by eapply Step_cached. }
        by eapply Step_acquire.
      * unfold run_after_deps.
        destruct (heap s !! task) as [l|] eqn:Hl; [|done]. cbn.
        destruct (mapM _ children) as [dep_res|] eqn:Hm; [|done]. cbn.
        destruct (deps_failure task dep_res) as [f|] eqn:Hf;
          intros [= <- <-].
        { by eapply Step_deps_failed. }
        by eapply Step_run_start.
      * unfold run_ended.
        destruct (heap s !! task) as [l|] eqn:Hl; [|done]. cbn.
        destruct (run l (jargs job) (world s)) as [out w] eqn:Hrun.
        intros [= <- <-].
        destruct (run_handler task out) as [r|e] eqn:Hh.
        { by eapply Step_run_stored. }
        by eapply Step_run_raised.
    + unfold gather_raised.
      destruct (jobs s !! j) as [job|] eqn:Hj; [|done]. cbn.
      destruct (pc job) as [|?|task children|?|?|?] eqn:Hpc; try done.
      case_bool_decide; [|done].
      destruct (job_raised (jobs s) k) as [e|] eqn:He; [|done]. cbn.
      destruct (heap s !! task) as [l|] eqn:Hl; [|done]. cbn.
      intros [= <- <-]. by eapply Step_gather_raised.
    + intros [= <- <-]. constructor.
    + destruct (LazyDB_add task s) as [s1|] eqn:Hs1; [|done]. cbn.
      intros [= <- <-]. by constructor.
    + intros [= <- <-]. constructor.
    + intros [= <- <-]. constructor.
    + intros [= <- <-]. constructor.
  - intros HS. destruct HS; cbn; try done.
    all: unfold advance, LazyDB_run, run_cached, run_after_deps, run_ended,
           gather_raised.
    all: repeat match goal with
           | H : _ = _ |- _ => rewrite H; cbn
           end; try done.
    rewrite bool_decide_eq_true_2 by done. cbn.
    repeat match goal with H : _ = _ |- _ => rewrite H; cbn end. done.
Qed.

(** ** Tasks and the registry: the operations that do not suspend *)

Lemma Result_bool_false (r : Result) : Result_bool r = false ↔ is_Failure r.
Proof. destruct r; simpl; intuition congruence. Qed.

Lemma Result_bool_true (r : Result) :
  Result_bool r = true ↔ ∃ task v, r = Ok task v.
Proof.
  destruct r; simpl; split; try congruence; eauto.
  all: by intros (? & ? & ?).
Qed.

(** C6. The [result] property raises [ValueError] exactly when the cell is
    empty or holds a failure; on a cell holding [Ok(task, v)] it returns [v];
    its assertion never fails. *)
Theorem result_raises_iff (l : Lazy) :
  ((∃ msg, result l = ValueError msg) ↔
     (_result l = None ∨ ∃ r, _result l = Some r ∧ is_Failure r))
  ∧ (∀ v, result l = Value v ↔ ∃ task, _result l = Some (Ok task v))
  ∧ result l ≠ AssertionError.
Proof.
  unfold result. destruct (_result l) as [r|].
  - destruct r; simpl.
    + split; [|split; [|done]].
      * split; [intros [? ?]; done|].
        intros [?|(r & ? & Hf)]; [done|]. by simplify_eq.
      * intros v; split; [intros [= <-]; eauto|]. intros [? ?]. by simplify_eq.
    + split; [|split; [|done]].
      * split; [intros _; right; eexists; split; [done|exact I] | intros _; eauto].
      * intros v; split; [done|]. by intros [? ?].
    + split; [|split; [|done]].
      * split; [intros _; right; eexists; split; [done|exact I] | intros _; eauto].
      * intros v; split; [done|]. by intros [? ?].
    + split; [|split; [|done]].
      * split; [intros _; right; eexists; split; [done|exact I] | intros _; eauto].
      * intros v; split; [done|]. by intros [? ?].
  - split; [|split; [|done]].
    + split; eauto.
    + intros v; split; [done|]. by intros [? ?].
Qed.

Lemma index_targets_lookup (task : ref) (tg : list T) (idx : gmap T ref) (t : T) :
  index_targets task tg idx !! t =
    if decide (t ∈ tg) then Some task else idx !! t.
Proof.
  unfold index_targets. revert idx.
  induction tg as [|t0 tg IH]; intros idx; cbn [foldl].
  - destruct (decide (t ∈ [])) as [Hin|]; [by apply elem_of_nil in Hin|done].
  - rewrite IH. destruct (decide (t = t0)) as [->|Hne].
    + rewrite lookup_insert_eq.
      rewrite (decide_True (P := t0 ∈ t0 :: tg)) by (apply elem_of_cons; auto).
      by destruct (decide (t0 ∈ tg)).
    + rewrite lookup_insert_ne by done.
      destruct (decide (t ∈ tg)) as [Hin|Hnin].
      * by rewrite decide_True by (apply elem_of_cons; auto).
      * rewrite decide_False; [done|].
        rewrite elem_of_cons. intros [?|?]; done.
Qed.

(** C7. [add(task)] appends the task to [tasks] and points every target of
    the task to it in [index]; the other entries of [index], the heap, the
    world and the coroutines are left alone.  A later [add] of a task that
    shares a target takes the entry over. *)
Theorem add_registers (s : State) (task : ref) (l : Lazy) :
  heap s !! task = Some l →
  ∃ s', LazyDB_add task s = Some s'
    ∧ tasks (db s') = tasks (db s) ++ [task]
    ∧ (∀ t, t ∈ targets l → index (db s') !! t = Some task)
    ∧ (∀ t, t ∉ targets l → index (db s') !! t = index (db s) !! t)
    ∧ heap s' = heap s ∧ world s' = world s ∧ jobs s' = jobs s
    ∧ (∀ task2 l2 t, heap s !! task2 = Some l2 → t ∈ targets l →
         t ∈ targets l2 →
         ∃ s'', LazyDB_add task2 s' = Some s''
           ∧ index (db s'') !! t = Some task2).
Proof.
  intros Hl. unfold LazyDB_add. rewrite Hl. simpl.
  eexists; split; [done|]. simpl.
  split; [done|]. split; [|split; [|repeat split]].
  - intros t Ht. rewrite index_targets_lookup. by rewrite decide_True.
  - intros t Ht. rewrite index_targets_lookup. by rewrite decide_False.
  - intros task2 l2 t Hl2 _ Ht2. rewrite Hl2. simpl.
    eexists; split; [done|]. simpl.
    rewrite index_targets_lookup. by rewrite decide_True.
Qed.

Lemma reset_at_lookup (h : list Lazy) (t0 t : ref) :
  reset_at h t0 !! t =
    if decide (t = t0) then Lazy_reset <$> h !! t else h !! t.
Proof.
  unfold reset_at. destruct (h !! t0) as [l|] eqn:Hl.
  - case_decide as Heq.
    + subst. rewrite list_lookup_insert_eq by (by eapply lookup_lt_Some).
      by rewrite Hl.
    + by rewrite list_lookup_insert_ne.
  - case_decide; [subst; by rewrite Hl|done].
Qed.

Lemma reset_at_length (h : list Lazy) (t0 : ref) :
  length (reset_at h t0) = length h.
Proof. unfold reset_at. destruct (h !! t0); by rewrite ?length_insert. Qed.

Lemma foldl_reset_at_lookup (ts : list ref) (h : list Lazy) (t : ref) :
  foldl reset_at h ts !! t =
    if decide (t ∈ ts) then Lazy_reset <$> h !! t else h !! t.
Proof.
  revert h. induction ts as [|t0 ts IH]; intros h; cbn [foldl].
  - destruct (decide (t ∈ [])) as [Hin|]; [by apply elem_of_nil in Hin|done].
  - rewrite IH, reset_at_lookup.
    destruct (decide (t = t0)) as [->|Hne].
    + rewrite (decide_True (P := t0 ∈ t0 :: ts)) by (apply elem_of_cons; auto).
      destruct (decide (t0 ∈ ts)); [|done]. by destruct (h !! t0).
    + destruct (decide (t ∈ ts)) as [Hin|Hnin].
      * by rewrite decide_True by (apply elem_of_cons; auto).
      * rewrite decide_False; [done|].
        rewrite elem_of_cons. intros [?|?]; done.
Qed.

Lemma foldl_reset_at_length (ts : list ref) (h : list Lazy) :
  length (foldl reset_at h ts) = length h.
Proof.
  revert h. induction ts as [|t0 ts IH]; intros h; simpl; [done|].
  by rewrite IH, reset_at_length.
Qed.

(** C8. [LazyDB.reset] empties the cell of every task of [tasks] and of no
    other; [tasks], [index], and the targets, dependencies, lock and body of
    every task stay as they were. [LazyDB.clean] empties [tasks] and
    [index]. *)
Theorem reset_frame (s : State) :
  tasks (db (LazyDB_reset s)) = tasks (db s)
  ∧ index (db (LazyDB_reset s)) = index (db s)
  ∧ length (heap (LazyDB_reset s)) = length (heap s)
  ∧ (∀ t l, heap s !! t = Some l →
       ∃ l', heap (LazyDB_reset s) !! t = Some l'
         ∧ targets l' = targets l ∧ dependencies l' = dependencies l
         ∧ _lock l' = _lock l ∧ run l' = run l
         ∧ _result l' = if decide (t ∈ tasks (db s)) then None else _result l)
  ∧ tasks (db (LazyDB_clean s)) = []
  ∧ index (db (LazyDB_clean s)) = ∅.
Proof.
  repeat split; try done.
  - simpl. apply foldl_reset_at_length.
  - intros t l Hl.
    assert (heap (LazyDB_reset s) !! t =
              Some (if decide (t ∈ tasks (db s)) then Lazy_reset l else l))
      as ->.
    { unfold LazyDB_reset, set_heap. cbn [heap].
      rewrite foldl_reset_at_lookup. rewrite Hl. by case_decide. }
    eexists; split; [done|]. by case_decide.
Qed.

(** ** The invariant is kept by every transition *)

Lemma Inv_init (hook : T → OnMissing) (w : W) : Inv (init hook w).
Proof.
  split; simpl; try (intros; by simplify_list_eq).
  - intros task Hin. by apply elem_of_nil in Hin.
Qed.

Lemma jobs_move (j : nat) (job : Job) (p : PC) (s : State) (i : nat) :
  jobs s !! j = Some job →
  jobs (move j job p s) !! i =
    if decide (i = j) then Some (set_pc p job) else jobs s !! i.
Proof.
  intros Hj. unfold move. cbn [jobs set_jobs].
  case_decide as Heq.
  - subst. apply list_lookup_insert_eq. by eapply lookup_lt_Some.
  - by apply list_lookup_insert_ne.
Qed.

Lemma heap_insert_lookup (h : list Lazy) (task : ref) (l l' : Lazy) (r : ref) :
  h !! task = Some l →
  <[task := l']> h !! r = if decide (r = task) then Some l' else h !! r.
Proof.
  intros Hl. case_decide as Heq.
  - subst. apply list_lookup_insert_eq. by eapply lookup_lt_Some.
  - by apply list_lookup_insert_ne.
Qed.

Lemma children_ext (js js' : list Job) (children : list nat) (deps : list T) :
  jobs_ext js js' →
  Forall2 (λ c dep, ∃ cj, js !! c = Some cj ∧ jt cj = dep) children deps →
  Forall2 (λ c dep, ∃ cj, js' !! c = Some cj ∧ jt cj = dep) children deps.
Proof.
  intros Hext HF. eapply Forall2_impl; [exact HF|].
  intros c dep (cj & Hc & <-).
  destruct (Hext _ _ Hc) as (cj' & ? & ?). eauto.
Qed.

Lemma jobs_ext_insert (js : list Job) (j : nat) (job : Job) (p : PC) :
  js !! j = Some job → jobs_ext js (<[j := set_pc p job]> js).
Proof.
  intros Hj c cj Hc. destruct (decide (c = j)) as [->|Hne].
  - rewrite list_lookup_insert_eq by (by eapply lookup_lt_Some).
    simplify_eq. eauto.
  - rewrite list_lookup_insert_ne by done. eauto.
Qed.

Lemma jobs_ext_app (js more : list Job) : jobs_ext js (js ++ more).
Proof.
  intros c cj Hc. exists cj. split; [|done]. by apply lookup_app_l_Some.
Qed.

Lemma jobs_ext_refl (js : list Job) : jobs_ext js js.
Proof. intros c cj Hc. eauto. Qed.

Lemma jobs_ext_trans (js1 js2 js3 : list Job) :
  jobs_ext js1 js2 → jobs_ext js2 js3 → jobs_ext js1 js3.
Proof.
  intros H12 H23 c cj Hc. destruct (H12 _ _ Hc) as (cj2 & Hc2 & <-).
  apply (H23 _ _ Hc2).
Qed.

Lemma heap_ext_length (h h' : list Lazy) (r : ref) :
  heap_ext h h' → r < length h → r < length h'.
Proof.
  intros Hext Hr. destruct (lookup_lt_is_Some_2 _ _ Hr) as [l Hl].
  destruct (Hext _ _ Hl) as (l' & Hl' & _). by eapply lookup_lt_Some.
Qed.

Lemma heap_ext_refl (h : list Lazy) : heap_ext h h.
Proof. intros r l Hl. eauto. Qed.

Lemma heap_ext_app (h more : list Lazy) : heap_ext h (h ++ more).
Proof.
  intros r l Hl. exists l. split; [|done]. by apply lookup_app_l_Some.
Qed.

Lemma heap_ext_insert (h : list Lazy) (task : ref) (l l' : Lazy) :
  h !! task = Some l → dependencies l' = dependencies l →
  heap_ext h (<[task := l']> h).
Proof.
  intros Hl Hd r l0 Hr. rewrite (heap_insert_lookup _ _ l) by done.
  case_decide; simplify_eq; eauto.
Qed.

(** A transition after which nobody is newly inside a lock and no gather is
    newly awaited. *)
Lemma Inv_quiet (s s' : State) :
  Inv s →
  heap_ext (heap s) (heap s') →
  jobs_ext (jobs s) (jobs s') →
  (∀ i job' r, jobs s' !! i = Some job' → holds r job' →
     ∃ job, jobs s !! i = Some job ∧ holds r job) →
  (∀ i job' t c, jobs s' !! i = Some job' → pc job' = AtGather t c →
     ∃ job, jobs s !! i = Some job ∧ pc job = AtGather t c) →
  (∀ r l i job', heap s !! r = Some l → _lock l = true →
     jobs s' !! i = Some job' → holds r job' →
     ∃ l', heap s' !! r = Some l' ∧ _lock l' = true) →
  (∀ r l', heap s' !! r = Some l' → _lock l' = true → _result l' = None) →
  (∀ task, task ∈ tasks (db s') → task < length (heap s')) →
  (∀ t task, index (db s') !! t = Some task → task < length (heap s')) →
  Inv s'.
Proof.
  intros HI Hheap Hjobs Hholds Hgather Hlock Hcell Htasks Hindex.
  split; [| | done | | done | done].
  - intros i job' r Hi Hh.
    destruct (Hholds _ _ _ Hi Hh) as (job & Hjob & Hhj).
    destruct (inv_holder _ HI _ _ _ Hjob Hhj) as (l & Hl & Hlk).
    eauto.
  - intros i1 i2 job1 job2 r H1 H2 Hh1 Hh2.
    destruct (Hholds _ _ _ H1 Hh1) as (? & ? & ?).
    destruct (Hholds _ _ _ H2 Hh2) as (? & ? & ?).
    by eapply (inv_unique _ HI).
  - intros i job' t c Hi Hpc.
    destruct (Hgather _ _ _ _ Hi Hpc) as (job & Hjob & Hpcj).
    destruct (inv_children _ HI _ _ _ _ Hjob Hpcj) as (l & Hl & HF).
    destruct (Hheap _ _ Hl) as (l' & Hl' & Hd).
    exists l'. split; [done|]. rewrite Hd. by eapply children_ext.
Qed.

Lemma insert_holds_back (js : list Job) (j : nat) (job : Job) (p : PC) :
  js !! j = Some job →
  (∀ r, holds r (set_pc p job) → holds r job) →
  ∀ i job' r, <[j := set_pc p job]> js !! i = Some job' → holds r job' →
    ∃ job0, js !! i = Some job0 ∧ holds r job0.
Proof.
  intros Hj Hp i job' r Hi Hh. destruct (decide (i = j)) as [->|Hne].
  - rewrite list_lookup_insert_eq in Hi by (by eapply lookup_lt_Some).
    simplify_eq. eauto.
  - rewrite list_lookup_insert_ne in Hi by done. eauto.
Qed.

Lemma insert_gather_back (js : list Job) (j : nat) (job : Job) (p : PC) :
  js !! j = Some job →
  (∀ t c, p = AtGather t c → pc job = AtGather t c) →
  ∀ i job' t c, <[j := set_pc p job]> js !! i = Some job' →
    pc job' = AtGather t c →
    ∃ job0, js !! i = Some job0 ∧ pc job0 = AtGather t c.
Proof.
  intros Hj Hp i job' t c Hi Hpc. destruct (decide (i = j)) as [->|Hne].
  - rewrite list_lookup_insert_eq in Hi by (by eapply lookup_lt_Some).
    simplify_eq. eauto.
  - rewrite list_lookup_insert_ne in Hi by done. eauto.
Qed.

Lemma Inv_LazyDB_run (s : State) (j : nat) (job : Job) :
  Inv s → jobs s !! j = Some job → pc job = AtRun →
  Inv (LazyDB_run j job s).
Proof.
  intros HI Hj Hpc. unfold LazyDB_run.
  destruct (index (db s) !! jt job) as [task|] eqn:Hidx;
    [|destruct (on_missing (db s) (jt job)) as [|tg dp body]].
  - apply (Inv_quiet s); try done; cbn.
    + apply heap_ext_refl.
    + by apply jobs_ext_insert.
    + by apply insert_holds_back.
    + by apply insert_gather_back.
    + eauto.
    + apply (inv_locked _ HI).
    + apply (inv_tasks _ HI).
    + apply (inv_index _ HI).
  - apply (Inv_quiet s); try done; cbn.
    + apply heap_ext_refl.
    + by apply jobs_ext_insert.
    + by apply insert_holds_back.
    + by apply insert_gather_back.
    + eauto.
    + apply (inv_locked _ HI).
    + apply (inv_tasks _ HI).
    + apply (inv_index _ HI).
  - apply (Inv_quiet s); try done; cbn.
    + apply heap_ext_app.
    + by apply jobs_ext_insert.
    + by apply insert_holds_back.
    + by apply insert_gather_back.
    + intros r l i job' Hl Hlk _ _. exists l. split; [|done].
      by apply lookup_app_l_Some.
    + intros r l' Hl' Hlk. apply lookup_app_Some in Hl' as [Hl'|[_ Hl']].
      * by eapply (inv_locked _ HI).
      * apply list_lookup_singleton_Some in Hl' as [_ <-]. done.
    + intros task Hin. rewrite length_app. cbn.
      pose proof (inv_tasks _ HI _ Hin). lia.
    + intros t task Hin. rewrite length_app. cbn.
      pose proof (inv_index _ HI _ _ Hin). lia.
Qed.

Lemma spawn_lookup (deps : list T) (k : nat) (cj : Job) :
  spawn deps !! k = Some cj →
  pc cj = AtRun ∧ jargs cj = [] ∧ deps !! k = Some (jt cj).
Proof.
  unfold spawn. rewrite list_lookup_fmap.
  destruct (deps !! k) as [dep|]; [|done]. by intros [= <-].
Qed.

Lemma spawn_children (js js' : list Job) (deps : list T) :
  length js' = length js →
  Forall2 (λ c dep, ∃ cj, (js' ++ spawn deps) !! c = Some cj ∧ jt cj = dep)
    (seq (length js) (length deps)) deps.
Proof.
  intros <-. clear js. rename js' into js.
  apply Forall2_same_length_lookup_2.
  - by rewrite length_seq.
  - intros i c dep Hc Hdep. apply lookup_seq in Hc as [-> Hi].
    exists (mkJob dep [] AtRun). split; [|done].
    rewrite lookup_app_r by lia.
    replace (length js + i - length js) with i by lia.
    unfold spawn. by rewrite list_lookup_fmap, Hdep.
Qed.

Lemma acquire_jobs_lookup (js more : list Job) (j : nat) (job : Job) (p : PC)
    (i : nat) (job' : Job) :
  js !! j = Some job →
  (<[j := set_pc p job]> js ++ more) !! i = Some job' →
  (i = j ∧ job' = set_pc p job)
  ∨ (i ≠ j ∧ js !! i = Some job')
  ∨ (length js ≤ i ∧ more !! (i - length js) = Some job').
Proof.
  intros Hj Hi. apply lookup_app_Some in Hi as [Hi|[Hlen Hi]].
  - destruct (decide (i = j)) as [->|Hne].
    + rewrite list_lookup_insert_eq in Hi by (by eapply lookup_lt_Some).
      left. by simplify_eq.
    + rewrite list_lookup_insert_ne in Hi by done. right; left. done.
  - rewrite length_insert in Hlen, Hi. right; right. done.
Qed.

Lemma Inv_run_cached (s s' : State) (j : nat) (job : Job) (task : ref) :
  Inv s → jobs s !! j = Some job → pc job = AtLock task →
  run_cached j job task s = Some s' → Inv s'.
Proof.
  intros HI Hj Hpc. unfold run_cached.
  destruct (heap s !! task) as [l|] eqn:Hl; [|done]. cbn.
  destruct (_lock l) eqn:Hlk; [done|].
  destruct (_result l) as [r|] eqn:Hr; intros [= <-].
  - apply (Inv_quiet s); try done; cbn.
    + apply heap_ext_refl.
    + by apply jobs_ext_insert.
    + by apply insert_holds_back.
    + by apply insert_gather_back.
    + eauto.
    + apply (inv_locked _ HI).
    + apply (inv_tasks _ HI).
    + apply (inv_index _ HI).
  - assert (Hfree : ∀ i job0, jobs s !! i = Some job0 → ¬ holds task job0).
    { intros i job0 Hi Hh.
      destruct (inv_holder _ HI _ _ _ Hi Hh) as (l0 & Hl0 & Hlk0).
      congruence. }
    split; cbn.
    + intros i job' r Hi Hh.
      rewrite (heap_insert_lookup _ _ l) by done.
      destruct (acquire_jobs_lookup _ _ _ _ _ _ _ Hj Hi) as
        [[-> ->]|[[Hne Hi']|[_ Hi']]].
      * cbn in Hh. subst r. rewrite decide_True by done. eauto.
      * case_decide as Heq; [subst r; by destruct (Hfree _ _ Hi')|].
        by eapply (inv_holder _ HI).
      * apply spawn_lookup in Hi' as (Hrun & _). unfold holds in Hh.
        by rewrite Hrun in Hh.
    + intros i1 i2 job1 job2 r H1 H2 Hh1 Hh2.
      destruct (acquire_jobs_lookup _ _ _ _ _ _ _ Hj H1) as
        [[-> ->]|[[Hne1 H1']|[_ H1']]];
      destruct (acquire_jobs_lookup _ _ _ _ _ _ _ Hj H2) as
        [[-> ->]|[[Hne2 H2']|[_ H2']]]; try done.
      all: try (apply spawn_lookup in H1' as (Hrun & _); unfold holds in Hh1;
                by rewrite Hrun in Hh1).
      all: try (apply spawn_lookup in H2' as (Hrun & _); unfold holds in Hh2;
                by rewrite Hrun in Hh2).
      * cbn in Hh1. subst r. by destruct (Hfree _ _ H2').
      * cbn in Hh2. subst r. by destruct (Hfree _ _ H1').
      * by eapply (inv_unique _ HI).
    + intros r l' Hl'. rewrite (heap_insert_lookup _ _ l) in Hl' by done.
      case_decide; simplify_eq; [done|].
      intros ?. by eapply (inv_locked _ HI).
    + intros i job' t c Hi Hpc'.
      assert (jobs_ext (jobs s)
                (<[j := set_pc (AtGather task
                   (seq (length (jobs s)) (length (dependencies l)))) job]>
                   (jobs s) ++ spawn (dependencies l))) as Hext.
      { eapply jobs_ext_trans; [by apply jobs_ext_insert|apply jobs_ext_app]. }
      destruct (acquire_jobs_lookup _ _ _ _ _ _ _ Hj Hi) as
        [[-> ->]|[[Hne Hi']|[_ Hi']]].
      * cbn in Hpc'. injection Hpc' as <- <-.
        exists (set_lock true l). split.
        { by rewrite (heap_insert_lookup _ _ l), decide_True. }
        cbn. apply spawn_children. apply length_insert.
      * destruct (inv_children _ HI _ _ _ _ Hi' Hpc') as (l0 & Hl0 & HF).
        destruct (heap_ext_insert _ _ l (set_lock true l) Hl eq_refl _ _ Hl0)
          as (l0' & Hl0' & Hd).
        exists l0'. split; [done|]. rewrite Hd. by eapply children_ext.
      * apply spawn_lookup in Hi' as (Hrun & _). congruence.
    + intros r Hin. rewrite length_insert. by apply (inv_tasks _ HI).
    + intros t r Hin. rewrite length_insert. by eapply (inv_index _ HI).
Qed.

Lemma Inv_set_world (s : State) (w : W) : Inv s → Inv (set_world w s).
Proof. intros [? ? ? ? ? ?]. by split. Qed.

Lemma Inv_release (s : State) (j : nat) (job : Job) (task : ref)
    (l l' : Lazy) (p : PC) :
  Inv s → jobs s !! j = Some job → holds task job →
  heap s !! task = Some l →
  dependencies l' = dependencies l → _lock l' = false →
  outside p →
  Inv (move j job p (set_heap (<[task := l']> (heap s)) s)).
Proof.
  intros HI Hj Hh Hl Hd Hlk Hout.
  assert (Hp : ∀ r, ¬ holds r (set_pc p job)).
  { intros r. unfold holds. destruct p; cbn in *; tauto. }
  assert (Hg : ∀ t c, p ≠ AtGather t c).
  { intros t c ->. exact Hout. }
  apply (Inv_quiet s); try done; cbn.
  - by eapply heap_ext_insert.
  - by apply jobs_ext_insert.
  - apply insert_holds_back; [done|]. intros r Hr. by destruct (Hp r).
  - apply insert_gather_back; [done|]. intros t c ->. by destruct (Hg t c).
  - intros r l0 i job' Hl0 Hlk0 Hi Hh'.
    rewrite (heap_insert_lookup _ _ l) by done.
    destruct (decide (i = j)) as [->|Hne].
    { rewrite list_lookup_insert_eq in Hi by (by eapply lookup_lt_Some).
      simplify_eq. by destruct (Hp r). }
    rewrite list_lookup_insert_ne in Hi by done.
    case_decide as Heq; [|eauto]. subst r.
    destruct Hne. by eapply (inv_unique _ HI).
  - intros r l0 Hl0. rewrite (heap_insert_lookup _ _ l) in Hl0 by done.
    case_decide; simplify_eq; [congruence|].
    intros ?. by eapply (inv_locked _ HI).
  - intros r Hin. rewrite length_insert. by apply (inv_tasks _ HI).
  - intros t r Hin. rewrite length_insert. by eapply (inv_index _ HI).
Qed.

Lemma Inv_run_after_deps (s s' : State) (j : nat) (job : Job) (task : ref)
    (children : list nat) (lab : Label) :
  Inv s → jobs s !! j = Some job → pc job = AtGather task children →
  run_after_deps j job task children s = Some (lab, s') → Inv s'.
Proof.
  intros HI Hj Hpc. unfold run_after_deps.
  destruct (heap s !! task) as [l|] eqn:Hl; [|done]. cbn.
  destruct (mapM _ children) as [dep_res|]; [|done]. cbn.
  destruct (deps_failure task dep_res) as [f|]; intros [= <- <-].
  - apply (Inv_release s j job task l); try done.
    unfold holds. by rewrite Hpc.
  - apply (Inv_quiet s); try done; cbn.
    + apply heap_ext_refl.
    + by apply jobs_ext_insert.
    + apply insert_holds_back; [done|]. unfold holds. cbn. by rewrite Hpc.
    + by apply insert_gather_back.
    + eauto.
    + apply (inv_locked _ HI).
    + apply (inv_tasks _ HI).
    + apply (inv_index _ HI).
Qed.

Lemma Inv_run_ended (s s' : State) (j : nat) (job : Job) (task : ref)
    (lab : Label) :
  Inv s → jobs s !! j = Some job → pc job = AtTaskRun task →
  run_ended j job task s = Some (lab, s') → Inv s'.
Proof.
  intros HI Hj Hpc. unfold run_ended.
  destruct (heap s !! task) as [l|] eqn:Hl; [|done]. cbn.
  destruct (run l (jargs job) (world s)) as [out w].
  intros [= <- <-].
  destruct (run_handler task out) as [r|e].
  - apply (Inv_release (set_world w s) j job task l); try done.
    + by apply Inv_set_world.
    + unfold holds. by rewrite Hpc.
  - apply (Inv_release (set_world w s) j job task l); try done.
    + by apply Inv_set_world.
    + unfold holds. by rewrite Hpc.
Qed.

Lemma Inv_gather_raised (s s' : State) (j k : nat) :
  Inv s → gather_raised j k s = Some s' → Inv s'.
Proof.
  intros HI. unfold gather_raised.
  destruct (jobs s !! j) as [job|] eqn:Hj; [|done]. cbn.
  destruct (pc job) as [|?|task children|?|?|?] eqn:Hpc; try done.
  case_bool_decide; [|done].
  destruct (job_raised (jobs s) k) as [e|]; [|done]. cbn.
  destruct (heap s !! task) as [l|] eqn:Hl; [|done]. cbn.
  intros [= <-].
  apply (Inv_release s j job task l); try done.
  unfold holds. by rewrite Hpc.
Qed.

Lemma app_holds_back (js : list Job) (t : T) (args : list A) :
  ∀ i job' r, (js ++ [mkJob t args AtRun]) !! i = Some job' → holds r job' →
    ∃ job0, js !! i = Some job0 ∧ holds r job0.
Proof.
  intros i job' r Hi Hh. apply lookup_app_Some in Hi as [Hi|[_ Hi]]; [eauto|].
  apply list_lookup_singleton_Some in Hi as [_ <-]. done.
Qed.

Lemma app_gather_back (js : list Job) (t : T) (args : list A) :
  ∀ i job' r c, (js ++ [mkJob t args AtRun]) !! i = Some job' →
    pc job' = AtGather r c →
    ∃ job0, js !! i = Some job0 ∧ pc job0 = AtGather r c.
Proof.
  intros i job' r c Hi Hpc. apply lookup_app_Some in Hi as [Hi|[_ Hi]]; [eauto|].
  apply list_lookup_singleton_Some in Hi as [_ <-]. done.
Qed.

(** Resetting cells keeps the invariant, whichever cells are reset. *)
Lemma Inv_resets (s : State) (h' : list Lazy) :
  Inv s →
  (∀ r, h' !! r = heap s !! r ∨ h' !! r = Lazy_reset <$> heap s !! r) →
  Inv (set_heap h' s).
Proof.
  intros HI Hh'.
  assert (Hext : heap_ext (heap s) h').
  { intros r l Hl. destruct (Hh' r) as [->| ->]; rewrite Hl; cbn; eauto. }
  apply (Inv_quiet s); try done; cbn.
  - apply jobs_ext_refl.
  - eauto.
  - eauto.
  - intros r l i job' Hl Hlk _ _.
    destruct (Hh' r) as [->| ->]; rewrite Hl; cbn; eauto.
  - intros r l' Hl'. destruct (Hh' r) as [Hr|Hr]; rewrite Hr in Hl'.
    + intros ?. by eapply (inv_locked _ HI).
    + destruct (heap s !! r); cbn in Hl'; [|done].
      injection Hl' as <-. done.
  - intros r Hin. eapply heap_ext_length; [done|]. by apply (inv_tasks _ HI).
  - intros t r Hin. eapply heap_ext_length; [done|]. by eapply (inv_index _ HI).
Qed.

Lemma Inv_LazyDB_add (s s' : State) (task : ref) :
  Inv s → LazyDB_add task s = Some s' → Inv s'.
Proof.
  intros HI. unfold LazyDB_add.
  destruct (heap s !! task) as [l|] eqn:Hl; [|done]. cbn. intros [= <-].
  apply (Inv_quiet s); try done; cbn.
  - apply heap_ext_refl.
  - apply jobs_ext_refl.
  - eauto.
  - eauto.
  - eauto.
  - apply (inv_locked _ HI).
  - intros r Hin. apply elem_of_app in Hin as [Hin|Hin].
    + by apply (inv_tasks _ HI).
    + apply list_elem_of_singleton in Hin as ->. by eapply lookup_lt_Some.
  - intros t r. rewrite index_targets_lookup. case_decide.
    + intros [= <-]. by eapply lookup_lt_Some.
    + apply (inv_index _ HI).
Qed.

Theorem Inv_step (s s' : State) (ev : Event) (lab : Label) :
  Inv s → step ev s = Some (lab, s') → Inv s'.
Proof.
  intros HI. destruct ev as [t args|j|j k|tg dp body|task| | |task]; cbn.
  - intros [= <- <-]. apply (Inv_quiet s); try done; cbn.
    + apply heap_ext_refl.
    + apply jobs_ext_app.
    + apply app_holds_back.
    + apply app_gather_back.
    + eauto.
    + apply (inv_locked _ HI).
    + apply (inv_tasks _ HI).
    + apply (inv_index _ HI).
  - unfold advance. destruct (jobs s !! j) as [job|] eqn:Hj; [|done]. cbn.
    destruct (pc job) as [|task|task children|task|?|?] eqn:Hpc; try done.
    + intros [= <- <-]. by apply Inv_LazyDB_run.
    + destruct (run_cached j job task s) as [s1|] eqn:Hs1; [|done]. cbn.
      intros [= <- <-]. by eapply Inv_run_cached.
    + by eapply Inv_run_after_deps.
    + by eapply Inv_run_ended.
  - destruct (gather_raised j k s) as [s1|] eqn:Hs1; [|done]. cbn.
    intros [= <- <-]. by eapply Inv_gather_raised.
  - intros [= <- <-]. apply (Inv_quiet s); try done; cbn.
    + apply heap_ext_app.
    + apply jobs_ext_refl.
    + eauto.
    + eauto.
    + intros r l i job' Hl Hlk _ _. exists l. split; [|done].
      by apply lookup_app_l_Some.
    + intros r l' Hl' Hlk. apply lookup_app_Some in Hl' as [Hl'|[_ Hl']].
      * by eapply (inv_locked _ HI).
      * apply list_lookup_singleton_Some in Hl' as [_ <-]. done.
    + intros task Hin. rewrite length_app. cbn.
      pose proof (inv_tasks _ HI _ Hin). lia.
    + intros t task Hin. rewrite length_app. cbn.
      pose proof (inv_index _ HI _ _ Hin). lia.
  - destruct (LazyDB_add task s) as [s1|] eqn:Hs1; [|done]. cbn.
    intros [= <- <-]. by eapply Inv_LazyDB_add.
  - intros [= <- <-]. apply (Inv_quiet s); try done; cbn.
    + apply heap_ext_refl.
    + apply jobs_ext_refl.
    + eauto.
    + eauto.
    + eauto.
    + apply (inv_locked _ HI).
    + intros r Hin. by apply elem_of_nil in Hin.
  - intros [= <- <-]. apply Inv_resets; [done|]. intros r.
    rewrite foldl_reset_at_lookup. case_decide; auto.
  - intros [= <- <-]. apply Inv_resets; [done|]. intros r.
    rewrite reset_at_lookup. case_decide; auto.
Qed.

(** ** Resolution of one task *)

Lemma filter_failures (dep_res : list Result) :
  filter (λ f, negb (Result_bool f)) dep_res = filter is_Failure dep_res.
Proof.
  apply list_filter_iff. intros f. by destruct f.
Qed.

Lemma deps_failure_Some (self : ref) (dep_res : list Result) :
  (∃ f, f ∈ dep_res ∧ is_Failure f) →
  deps_failure self dep_res =
    Some (DependencyFailure self (filter is_Failure dep_res)).
Proof.
  intros (f & Hin & Hf). unfold deps_failure.
  destruct (forallb Result_bool dep_res) eqn:Hall; cbn.
  - exfalso. apply Is_true_true_2, forallb_True in Hall.
    rewrite Forall_forall in Hall. specialize (Hall _ Hin).
    by destruct f.
  - by rewrite filter_failures.
Qed.

Lemma deps_failure_None (self : ref) (dep_res : list Result) :
  (∀ r, r ∈ dep_res → Result_bool r = true) →
  deps_failure self dep_res = None.
Proof.
  intros Hall. unfold deps_failure.
  destruct (forallb Result_bool dep_res) eqn:Hb; [done|].
  exfalso. apply (eq_true_false_abs _ (eq_refl true)).
  rewrite <- Hb. symmetry. apply Is_true_true_1, forallb_True, Forall_forall.
  intros r Hr. by apply Is_true_true_2, Hall.
Qed.

(** C2. When [gather] has returned the outcomes [dep_res] of the
    dependencies and one of them is a failure, the coroutine returns
    [DependencyFailure(self, failures)] where [failures] is [dep_res] with
    the [Ok] outcomes removed (order and repetitions kept); the outcome is
    stored and the lock released. The transition is silent: [run] is not
    invoked, the world is untouched. *)
Theorem dependency_failure_branch (s : State) (j : nat) (job : Job)
    (task : ref) (children : list nat) (l : Lazy) (dep_res : list Result) :
  jobs s !! j = Some job → pc job = AtGather task children →
  heap s !! task = Some l →
  mapM (job_result (jobs s)) children = Some dep_res →
  (∃ f, f ∈ dep_res ∧ is_Failure f) →
  ∃ failures s',
    step (Advance j) s = Some (Tau, s')
    ∧ failures = filter is_Failure dep_res
    ∧ (∀ f, f ∈ failures ↔ f ∈ dep_res ∧ is_Failure f)
    ∧ sublist failures dep_res
    ∧ jobs s' !! j =
        Some (set_pc (Returned (DependencyFailure task failures)) job)
    ∧ (_result <$> heap s' !! task) =
        Some (Some (DependencyFailure task failures))
    ∧ world s' = world s.
Proof.
  intros Hj Hpc Hl Hm Hf.
  exists (filter is_Failure dep_res).
  exists (store_release j job task l
            (DependencyFailure task (filter is_Failure dep_res)) s).
  split; [|split; [done|split; [|split; [|split; [|split]]]]].
  - apply step_cases. eapply Step_deps_failed; try done.
    by apply deps_failure_Some.
  - intros f. rewrite list_elem_of_filter. tauto.
  - apply sublist_filter.
  - cbn. apply list_lookup_insert_eq. by eapply lookup_lt_Some.
  - cbn. rewrite list_lookup_insert_eq by (by eapply lookup_lt_Some). done.
  - done.
Qed.

(** C3. When every outcome of the dependencies is truthy, [run] is
    invoked: the coroutine is inside the body, nothing else has changed.
    When the body ends, the world is the one it made, the lock is free, and:
    for a returned [v] the coroutine has returned [Ok(self, v)] and the cell
    holds it; for a raised [TaskFailure] the coroutine has returned that
    failure and the cell holds it; for any other exception the coroutine
    has ended as raised with that exception and the cell is as it was.
    And when a coroutine has ended as raised, a caller that gathers it
    ends as raised with the same exception, its lock released and its cell
    not assigned. The other coroutines, the other objects and the registry
    are left alone throughout. *)
Theorem run_branch (s : State) (j : nat) (job : Job)
    (task : ref) (children : list nat) (l : Lazy) (dep_res : list Result) :
  jobs s !! j = Some job → pc job = AtGather task children →
  heap s !! task = Some l →
  mapM (job_result (jobs s)) children = Some dep_res →
  (∀ r, r ∈ dep_res → Result_bool r = true) →
  (∃ s1,
     step (Advance j) s = Some (RunStart task, s1)
     ∧ jobs s1 !! j = Some (set_pc (AtTaskRun task) job)
     ∧ (∀ i, i ≠ j → jobs s1 !! i = jobs s !! i)
     ∧ heap s1 = heap s ∧ world s1 = world s ∧ db s1 = db s)
  ∧ (∀ (s2 : State) (job2 : Job) (l2 : Lazy) (out : RunOutcome) (w : W),
       jobs s2 !! j = Some job2 → pc job2 = AtTaskRun task →
       heap s2 !! task = Some l2 →
       run l2 (jargs job2) (world s2) = (out, w) →
       ∃ s',
         step (Advance j) s2 = Some (RunEnd task out, s')
         ∧ world s' = w
         ∧ (_lock <$> heap s' !! task) = Some false
         ∧ match out with
           | Return v =>
               jobs s' !! j = Some (set_pc (Returned (Ok task v)) job2)
               ∧ (_result <$> heap s' !! task) = Some (Some (Ok task v))
           | RaiseTaskFailure t m =>
               jobs s' !! j = Some (set_pc (Returned (TaskFailure t m)) job2)
               ∧ (_result <$> heap s' !! task)
                 = Some (Some (TaskFailure t m))
           | RaiseOther e =>
               jobs s' !! j = Some (set_pc (Raised e) job2)
               ∧ (_result <$> heap s' !! task) = Some (_result l2)
           end
         ∧ (∀ i, i ≠ j → jobs s' !! i = jobs s2 !! i)
         ∧ (∀ r, r ≠ task → heap s' !! r = heap s2 !! r)
         ∧ db s' = db s2)
  ∧ (∀ (s3 : State) (e : E) (p : nat) (pjob : Job) (ptask : ref)
       (pchildren : list nat) (pl : Lazy),
       job_raised (jobs s3) j = Some e →
       jobs s3 !! p = Some pjob → pc pjob = AtGather ptask pchildren →
       j ∈ pchildren → heap s3 !! ptask = Some pl →
       ∃ s',
         step (Propagate p j) s3 = Some (Tau, s')
         ∧ jobs s' !! p = Some (set_pc (Raised e) pjob)
         ∧ (_lock <$> heap s' !! ptask) = Some false
         ∧ (_result <$> heap s' !! ptask) = Some (_result pl)
         ∧ (∀ i, i ≠ p → jobs s' !! i = jobs s3 !! i)
         ∧ (∀ r, r ≠ ptask → heap s' !! r = heap s3 !! r)
         ∧ world s' = world s3 ∧ db s' = db s3).
Proof.
  intros Hj Hpc Hl Hm Hall. split; [|split].
  - exists (move j job (AtTaskRun task) s).
    split; [|split; [|split; [|done]]].
    + apply step_cases. eapply Step_run_start; try done.
      by apply deps_failure_None.
    + cbn. apply list_lookup_insert_eq. by eapply lookup_lt_Some.
    + intros i Hi. cbn. by apply list_lookup_insert_ne.
  - intros s2 job2 l2 out w Hj2 Hpc2 Hl2 Hrun.
    pose proof (lookup_lt_Some _ _ _ Hj2) as Hlt.
    pose proof (lookup_lt_Some _ _ _ Hl2) as Hlt'.
    destruct out as [v|t m|e].
    + exists (store_release j job2 task l2 (Ok task v) (set_world w s2)).
      split; [apply step_cases; by eapply Step_run_stored|]. cbn.
      rewrite !list_lookup_insert_eq by done.
      repeat split; try done.
      * intros i Hi. by apply list_lookup_insert_ne.
      * intros r Hr. by apply list_lookup_insert_ne.
    + exists (store_release j job2 task l2 (TaskFailure t m)
                (set_world w s2)).
      split; [apply step_cases; by eapply Step_run_stored|]. cbn.
      rewrite !list_lookup_insert_eq by done.
      repeat split; try done.
      * intros i Hi. by apply list_lookup_insert_ne.
      * intros r Hr. by apply list_lookup_insert_ne.
    + exists (raise_release j job2 task l2 e (set_world w s2)).
      split; [apply step_cases; by eapply Step_run_raised|]. cbn.
      rewrite !list_lookup_insert_eq by done.
      repeat split; try done.
      * intros i Hi. by apply list_lookup_insert_ne.
      * intros r Hr. by apply list_lookup_insert_ne.
  - intros s3 e p pjob ptask pchildren pl He Hp Hppc Hin Hpl.
    pose proof (lookup_lt_Some _ _ _ Hp) as Hlt.
    pose proof (lookup_lt_Some _ _ _ Hpl) as Hlt'.
    exists (raise_release p pjob ptask pl e s3).
    split; [apply step_cases; by eapply Step_gather_raised|]. cbn.
    rewrite !list_lookup_insert_eq by done.
    repeat split; try done.
    + intros i Hi. by apply list_lookup_insert_ne.
    + intros r Hr. by apply list_lookup_insert_ne.
Qed.

(** C4. [LazyDB.run(t)] for [t] absent from [index]: with the default
    [on_missing] the coroutine returns [MissingFailure(t)] (it does not end
    as raised, and nothing else changes); when the hook returns a task, the
    coroutine goes on to [run_cached] of that task. *)
Theorem missing_identifier_policy (s : State) (j : nat) (job : Job) :
  jobs s !! j = Some job → pc job = AtRun →
  index (db s) !! jt job = None →
  (on_missing (db s) = on_missing_default →
     step (Advance j) s =
       Some (Tau, move j job (Returned (MissingFailure (jt job))) s))
  ∧ (∀ tg dp body,
       on_missing (db s) (jt job) = ReturnTask tg dp body →
       ∃ s' task,
         step (Advance j) s = Some (Tau, s')
         ∧ heap s' = heap s ++ [Lazy_init tg dp body]
         ∧ heap s' !! task = Some (Lazy_init tg dp body)
         ∧ jobs s' !! j = Some (set_pc (AtLock task) job)
         ∧ advance j s' =
             (s'' ← run_cached j (set_pc (AtLock task) job) task s';
              Some (Tau, s''))).
Proof.
  intros Hj Hpc Hidx. split.
  - intros Hhook. apply step_cases. apply Step_missing; try done.
    by rewrite Hhook.
  - intros tg dp body Hhook.
    eexists _, (length (heap s)). split; [|split; [|split; [|split]]].
    + apply step_cases. by apply Step_synthesized.
    + done.
    + cbn. rewrite lookup_app_r by lia. by rewrite Nat.sub_diag.
    + cbn. apply list_lookup_insert_eq. by eapply lookup_lt_Some.
    + unfold advance. cbn.
      rewrite list_lookup_insert_eq by (by eapply lookup_lt_Some). done.
Qed.

(** ** Memoisation *)

Lemma holder_cell_empty (s : State) (j : nat) (job : Job) (task : ref)
    (l : Lazy) :
  Inv s → jobs s !! j = Some job → holds task job →
  heap s !! task = Some l → _lock l = true ∧ _result l = None.
Proof.
  intros HI Hj Hh Hl.
  destruct (inv_holder _ HI _ _ _ Hj Hh) as (l0 & Hl0 & Hlk).
  simplify_eq. split; [done|]. by eapply (inv_locked _ HI).
Qed.

Lemma exec_cons (ev : Event) (evs : list Event) (s s' : State)
    (labs : list Label) :
  exec (ev :: evs) s = Some (labs, s') ↔
  ∃ lab s1 labs', step ev s = Some (lab, s1)
    ∧ exec evs s1 = Some (labs', s') ∧ labs = lab :: labs'.
Proof.
  cbn. destruct (step ev s) as [[lab s1]|]; cbn.
  - destruct (exec evs s1) as [[labs' s2]|] eqn:Hexec; cbn.
    + split.
      * intros [= <- <-]. eauto 10.
      * intros (? & ? & ? & [= <- <-] & Hexec' & ->).
        rewrite Hexec in Hexec'. by simplify_eq.
    + split; [done|]. intros (? & ? & ? & [= <- <-] & Hexec' & _).
      by rewrite Hexec in Hexec'.
  - split; [done|]. by intros (? & ? & ? & ? & _).
Qed.

Theorem Inv_exec (evs : list Event) (s s' : State) (labs : list Label) :
  Inv s → exec evs s = Some (labs, s') → Inv s'.
Proof.
  revert s labs. induction evs as [|ev evs IH]; intros s labs HI.
  - by intros [= _ <-].
  - intros (lab & s1 & labs' & Hstep & Hexec & _)%exec_cons.
    eapply IH; [|done]. by eapply Inv_step.
Qed.

(** Record, for each coroutine of the context that is inside the lock of
    some task [t], that [t] is not [task]; [Hne] proves it. *)
Ltac other_tasks Hne task :=
  repeat match goal with
    | Hj : jobs _ !! _ = Some ?job, Hpc : pc ?job = AtGather ?t _ |- _ =>
        lazymatch goal with
        | _ : t ≠ task |- _ => fail
        | _ => assert (t ≠ task)
                 by (apply (Hne _ _ _ Hj); unfold holds; by rewrite Hpc)
        end
    | Hj : jobs _ !! _ = Some ?job, Hpc : pc ?job = AtTaskRun ?t |- _ =>
        lazymatch goal with
        | _ : t ≠ task |- _ => fail
        | _ => assert (t ≠ task)
                 by (apply (Hne _ _ _ Hj); unfold holds; by rewrite Hpc)
        end
    end.

(** A filled cell survives every transition that is not a reset, and no
    such transition starts or ends [run] of that task. *)
Lemma cell_step (s s' : State) (ev : Event) (lab : Label) (task : ref)
    (l : Lazy) (o : Result) :
  Inv s → heap s !! task = Some l → _result l = Some o →
  Step s ev lab s' → clears task ev = false →
  (∃ l', heap s' !! task = Some l' ∧ _result l' = Some o)
  ∧ lab ≠ RunStart task ∧ (∀ out, lab ≠ RunEnd task out).
Proof.
  intros HI Hl Hr HS Hclr.
  assert (Hnh : ∀ i job0, jobs s !! i = Some job0 → ¬ holds task job0).
  { intros i job0 Hi Hh.
    destruct (holder_cell_empty _ _ _ _ _ HI Hi Hh Hl). congruence. }
  assert (Hne : ∀ i job0 t, jobs s !! i = Some job0 → holds t job0 →
                  t ≠ task).
  { intros i job0 t Hi Hh ->. by eapply Hnh. }
  destruct HS; cbn in *.
  all: other_tasks Hne task.
  all: try (rewrite list_lookup_insert_ne by done).
  all: try (split; [by eauto|split; [congruence|intros; congruence]]).
  - (* a task is synthesised *)
    split; [|done]. exists l. split; [|done]. by apply lookup_app_l_Some.
  - (* the lock of another task is taken *)
    split; [|done]. destruct (decide (task0 = task)) as [->|Hne'].
    + by simplify_eq.
    + rewrite list_lookup_insert_ne by done. eauto.
  - (* a task is constructed *)
    split; [|done]. exists l. split; [|done]. by apply lookup_app_l_Some.
  - (* add *)
    split; [|done]. unfold LazyDB_add in *.
    destruct (heap s !! task0); [|done]. cbn in *. simplify_eq. cbn. eauto.
  - (* reset of another task *)
    split; [|done]. rewrite reset_at_lookup. case_bool_decide; [done|].
    rewrite decide_False by done. eauto.
Qed.

Lemma cell_exec (evs : list Event) (s s' : State) (labs : list Label)
    (task : ref) (l : Lazy) (o : Result) :
  Inv s → heap s !! task = Some l → _result l = Some o →
  exec evs s = Some (labs, s') →
  Forall (λ ev, clears task ev = false) evs →
  (∃ l', heap s' !! task = Some l' ∧ _result l' = Some o)
  ∧ Forall (λ lab, lab ≠ RunStart task ∧ ∀ out, lab ≠ RunEnd task out) labs.
Proof.
  revert s labs l. induction evs as [|ev evs IH]; intros s labs l HI Hl Hr.
  - intros [= <- <-] _. split; [eauto|constructor].
  - intros (lab & s1 & labs' & Hstep & Hexec & ->)%exec_cons Hclr.
    apply Forall_cons in Hclr as [Hclr Hclrs].
    pose proof (Inv_step _ _ _ _ HI Hstep) as HI1.
    apply step_cases in Hstep.
    destruct (cell_step _ _ _ _ _ _ _ HI Hl Hr Hstep Hclr)
      as ((l1 & Hl1 & Hr1) & Hlab).
    destruct (IH _ _ _ HI1 Hl1 Hr1 Hexec Hclrs) as [Hcell Hlabs].
    split; [done|]. by constructor.
Qed.

(** C1. Once the cell of a task holds an outcome [o], then after any
    transitions among which there is no reset of the task: the cell still
    holds [o]; [run] of the task was neither started nor ended; and a
    coroutine that reaches [run_cached] of the task returns [o] in one
    silent transition that changes nothing else (no dependency is resolved
    again, [run] is not invoked). [reset] empties the cell. *)
Theorem memoization (s : State) (task : ref) (l : Lazy) (o : Result) :
  Inv s → heap s !! task = Some l → _result l = Some o →
  (∀ evs labs s',
     exec evs s = Some (labs, s') →
     Forall (λ ev, clears task ev = false) evs →
     (∃ l', heap s' !! task = Some l' ∧ _result l' = Some o)
     ∧ Forall (λ lab, lab ≠ RunStart task ∧ ∀ out, lab ≠ RunEnd task out) labs
     ∧ ∀ j job, jobs s' !! j = Some job → pc job = AtLock task →
         step (Advance j) s' = Some (Tau, move j job (Returned o) s'))
  ∧ (_result <$> reset_at (heap s) task !! task) = Some None
  ∧ (task ∈ tasks (db s) →
       (_result <$> heap (LazyDB_reset s) !! task) = Some None).
Proof.
  intros HI Hl Hr. split; [|split].
  - intros evs labs s' Hexec Hclr.
    destruct (cell_exec _ _ _ _ _ _ _ HI Hl Hr Hexec Hclr)
      as ((l' & Hl' & Hr') & Hlabs).
    split; [eauto|split; [done|]].
    intros j job Hj Hpc. apply step_cases.
    eapply Step_cached; try done.
    pose proof (Inv_exec _ _ _ _ HI Hexec) as HI'.
    destruct (_lock l') eqn:Hlk; [|done].
    pose proof (inv_locked _ HI' _ _ Hl' Hlk). congruence.
  - rewrite reset_at_lookup, decide_True, Hl by done. done.
  - intros Hin. cbn. rewrite foldl_reset_at_lookup, decide_True, Hl by done.
    done.
Qed.


(** ** One execution at a time, and at most one that ends with an outcome *)

Lemma Inv_exclusive (s : State) : Inv s → exclusive s.
Proof.
  intros HI j1 j2 job1 job2 task H1 H2 Hpc1 Hpc2.
  apply (inv_unique _ HI _ _ _ _ task H1 H2); unfold holds.
  - by rewrite Hpc1.
  - by rewrite Hpc2.
Qed.

(** [run] starts only when every dependency has been resolved to [Ok]. *)
Lemma run_start_after_deps (s s' : State) (ev : Event) (task : ref) :
  Inv s → Step s ev (RunStart task) s' →
  ∃ j job children l,
    ev = Advance j ∧ jobs s !! j = Some job
    ∧ pc job = AtGather task children ∧ heap s !! task = Some l
    ∧ Forall2 (λ c dep, ∃ cj r v, jobs s !! c = Some cj ∧ jt cj = dep
                           ∧ pc cj = Returned (Ok r v))
        children (dependencies l).
Proof.
  intros HI HS. inversion HS as
    [| | | | | | |j job task0 children l dep_res Hj Hpc Hl Hm Hf| | | | | | | |];
    subst.
  exists j, job, children, l. repeat (split; [done|]).
  destruct (inv_children _ HI _ _ _ _ Hj Hpc) as (l0 & Hl0 & HF).
  assert (l0 = l) as -> by congruence.
  assert (Hall : Forall (λ r, Result_bool r = true) dep_res).
  { unfold deps_failure in Hf.
    destruct (forallb Result_bool dep_res) eqn:Hb; [|done].
    apply Is_true_true_2, forallb_True in Hb.
    eapply Forall_impl; [exact Hb|]. intros r. apply Is_true_true_1. }
  apply mapM_Some in Hm. clear Hf Hpc.
  revert HF. generalize (dependencies l). intros deps HF.
  revert deps HF Hall. induction Hm as [|c r children dep_res Hc Hm IH];
    intros deps HF Hall.
  - inversion HF. constructor.
  - inversion HF as [|c' dep children' deps' (cj & Hcj & Hjt) HF']; subst.
    apply Forall_cons in Hall as [Hr Hall].
    constructor; [|by apply IH].
    unfold job_result in Hc. rewrite Hcj in Hc.
    destruct (pc cj) as [| | | |r'|] eqn:Hpcj; try done.
    injection Hc as ->. apply Result_bool_true in Hr as (t & v & ->).
    eauto 10.
Qed.

Lemma run_handler_inr (task : ref) (out : RunOutcome) (e : E) :
  run_handler task out = inr e ↔ out = RaiseOther e.
Proof. destruct out; cbn; split; congruence. Qed.

(** How a transition that is not a reset moves [busy]. *)
Lemma step_busy (s s' : State) (ev : Event) (lab : Label) (task : ref) :
  Inv s → Step s ev lab s' → clears task ev = false →
  (is_start task lab = true → ¬ busy task s ∧ busy task s')
  ∧ (busy task s → busy task s' ∨ is_defect task lab = true).
Proof.
  intros HI HS Hclr. split.
  - intros Hstart. destruct lab as [|t|]; cbn in Hstart; try done.
    apply bool_decide_eq_true in Hstart as ->.
    inversion HS as
      [| | | | | | |j job task0 children l dep_res Hj Hpc Hl Hm Hf| | | | | | | |];
      subst.
    assert (Hh : holds task job) by (unfold holds; by rewrite Hpc).
    split.
    + intros [(l1 & o & Hl1 & Ho)|(j1 & job1 & Hj1 & Hpc1)].
      * destruct (holder_cell_empty _ _ _ _ _ HI Hj Hh Hl1). congruence.
      * assert (Hh1 : holds task job1) by (unfold holds; by rewrite Hpc1).
        pose proof (inv_unique _ HI _ _ _ _ _ Hj Hj1 Hh Hh1) as ->.
        simplify_eq. congruence.
    + right. exists j, (set_pc (AtTaskRun task) job). split; [|done].
      cbn. apply list_lookup_insert_eq. by eapply lookup_lt_Some.
  - intros [(l & o & Hl & Ho)|(j0 & job0 & Hj0 & Hpc0)].
    + left; left.
      destruct (cell_step _ _ _ _ _ _ _ HI Hl Ho HS Hclr)
        as ((l' & Hl' & Ho') & _).
      by exists l', o.
    + destruct HS; cbn.
      all: try (destruct (decide (j = j0)) as [->|Hne];
                [assert (job = job0) as -> by congruence|]).
      all: try congruence.
      all: try (left; right; exists j0, job0; split; [|done]; cbn;
                first [ done
                      | by rewrite list_lookup_insert_ne
                      | by apply lookup_app_l_Some
                      | apply lookup_app_l_Some;
                        by rewrite list_lookup_insert_ne ]).
      * (* the body ends with an outcome *)
        assert (task0 = task) as -> by congruence.
        left; left.
        exists (set_lock false (set_result (Some r) l)), r.
        split; [|done]. cbn.
        apply list_lookup_insert_eq. by eapply lookup_lt_Some.
      * (* the body ends with an uncaught exception *)
        assert (task0 = task) as -> by congruence.
        right.
        match goal with
        | Hh : run_handler _ _ = inr _ |- _ => apply run_handler_inr in Hh as ->
        end.
        cbn. by apply bool_decide_eq_true.
      * (* add *)
        left; right. exists j0, job0. split; [|done].
        unfold LazyDB_add in *. destruct (heap s !! task0); [|done].
        cbn in *. by simplify_eq.
Qed.

(** On a trace without reset of [task], every start of [run] of [task] but
    the first follows an execution that ended with an uncaught exception. *)
Lemma starts_bound (evs : list Event) (s s' : State) (labs : list Label)
    (task : ref) :
  Inv s → exec evs s = Some (labs, s') →
  Forall (λ ev, clears task ev = false) evs →
  count (is_start task) labs ≤ 1 + count (is_defect task) labs
  ∧ (busy task s → count (is_start task) labs ≤ count (is_defect task) labs).
Proof.
  revert s labs. induction evs as [|ev evs IH]; intros s labs HI.
  - intros [= <- <-] _. cbn. split; [lia|]. intros _; lia.
  - intros (lab & s1 & labs' & Hstep & Hexec & ->)%exec_cons Hclr.
    apply Forall_cons in Hclr as [Hclr Hclrs].
    pose proof (Inv_step _ _ _ _ HI Hstep) as HI1.
    apply step_cases in Hstep.
    destruct (step_busy _ _ _ _ task HI Hstep Hclr) as [Hstart Hkeep].
    destruct (IH _ _ HI1 Hexec Hclrs) as [IH1 IH2].
    cbn [count].
    destruct (is_start task lab) eqn:Hs.
    + destruct (Hstart eq_refl) as [Hnb Hb1]. specialize (IH2 Hb1).
      assert (is_defect task lab = false) as ->.
      { destruct lab; cbn in *; done. }
      split; [lia|]. intros Hb. by destruct Hnb.
    + destruct (is_defect task lab) eqn:Hd.
      * split; [lia|]. intros _. lia.
      * split; [lia|]. intros Hb. destruct (Hkeep Hb) as [Hb1|?]; [|done].
        specialize (IH2 Hb1). lia.
Qed.

(** C5, amended. In every state the event loop can reach, whatever the
    interleaving: no two coroutines are inside [run] of the same task;
    [run] of a task starts only from the coroutine that holds its lock,
    once a coroutine [LazyDB.run(dep)] has returned [Ok] for each of its
    dependencies; and, as long as the task is not reset, every start of its
    [run] but the first follows an execution of it that ended with an
    exception other than [TaskFailure] (so [run] starts at most once when
    none does). *)
Theorem one_run_at_a_time (s : State) (evs : list Event)
    (labs : list Label) (s' : State) :
  Inv s → exec evs s = Some (labs, s') →
  exclusive s'
  ∧ (∀ ev task s'',
       step ev s' = Some (RunStart task, s'') →
       ∃ j job children l,
         ev = Advance j ∧ jobs s' !! j = Some job
         ∧ pc job = AtGather task children ∧ heap s' !! task = Some l
         ∧ _lock l = true
         ∧ Forall2 (λ c dep, ∃ cj r v, jobs s' !! c = Some cj ∧ jt cj = dep
                                ∧ pc cj = Returned (Ok r v))
             children (dependencies l))
  ∧ (∀ task,
       Forall (λ ev, clears task ev = false) evs →
       count (is_start task) labs ≤ 1 + count (is_defect task) labs
       ∧ (count (is_defect task) labs = 0 → count (is_start task) labs ≤ 1)
       ∧ (busy task s →
            count (is_start task) labs ≤ count (is_defect task) labs)).
Proof.
  intros HI Hexec. pose proof (Inv_exec _ _ _ _ HI Hexec) as HI'.
  split; [by apply Inv_exclusive|split].
  - intros ev task s'' Hstep. apply step_cases in Hstep.
    destruct (run_start_after_deps _ _ _ _ HI' Hstep)
      as (j & job & children & l & -> & Hj & Hpc & Hl & HF).
    exists j, job, children, l. repeat (split; [done|]).
    split; [|done].
    assert (Hh : holds task job) by (unfold holds; by rewrite Hpc).
    by destruct (holder_cell_empty _ _ _ _ _ HI' Hj Hh Hl).
  - intros task Hclr.
    destruct (starts_bound _ _ _ _ task HI Hexec Hclr) as [Hb1 Hb2].
    split; [done|split; [lia|done]].
Qed.

(** ** Tasks made by [on_missing] *)

Lemma heap_ext_trans (h1 h2 h3 : list Lazy) :
  heap_ext h1 h2 → heap_ext h2 h3 → heap_ext h1 h3.
Proof.
  intros H12 H23 r l Hl. destruct (H12 _ _ Hl) as (l2 & Hl2 & <-).
  apply (H23 _ _ Hl2).
Qed.

(** No transition removes an object or replaces the hook. *)
Lemma step_stable (s s' : State) (ev : Event) (lab : Label) :
  Step s ev lab s' →
  heap_ext (heap s) (heap s') ∧ on_missing (db s') = on_missing (db s).
Proof.
  intros HS. destruct HS; cbn; (split; [|try done]).
  all: try apply heap_ext_refl.
  all: try apply heap_ext_app.
  all: try (eapply heap_ext_insert; by eauto).
  - unfold LazyDB_add in *. destruct (heap s !! task); [|done].
    cbn in *. simplify_eq. apply heap_ext_refl.
  - unfold LazyDB_add in *. destruct (heap s !! task); [|done].
    cbn in *. by simplify_eq.
  - intros r l Hl. rewrite foldl_reset_at_lookup, Hl.
    case_decide; cbn; eauto.
  - intros r l Hl. rewrite reset_at_lookup, Hl.
    case_decide; cbn; eauto.
Qed.

Lemma exec_stable (evs : list Event) (s s' : State) (labs : list Label) :
  exec evs s = Some (labs, s') →
  heap_ext (heap s) (heap s') ∧ on_missing (db s') = on_missing (db s).
Proof.
  revert s labs. induction evs as [|ev evs IH]; intros s labs.
  - intros [= _ <-]. split; [apply heap_ext_refl|done].
  - intros (lab & s1 & labs' & Hstep & Hexec & _)%exec_cons.
    apply step_cases, step_stable in Hstep as [Hh1 Hm1].
    destruct (IH _ _ Hexec) as [Hh2 Hm2].
    split; [by eapply heap_ext_trans|congruence].
Qed.

(** Only [add] puts a task into [tasks]. *)
Lemma exec_unregistered (evs : list Event) (s s' : State)
    (labs : list Label) (task : ref) :
  exec evs s = Some (labs, s') →
  Forall (λ ev, ev ≠ DbAdd task) evs →
  task ∉ tasks (db s) → task ∉ tasks (db s').
Proof.
  revert s labs. induction evs as [|ev evs IH]; intros s labs.
  - by intros [= _ <-].
  - intros (lab & s1 & labs' & Hstep & Hexec & _)%exec_cons Hadd Hnin.
    apply Forall_cons in Hadd as [Hadd Hadds].
    eapply IH; [done|done|].
    apply step_cases in Hstep. destruct Hstep; cbn; try done.
    + unfold LazyDB_add in *. destruct (heap s !! task0); [|done].
      cbn in *. simplify_eq. cbn. rewrite elem_of_app.
      intros [?|Heq]; [done|].
      apply list_elem_of_singleton in Heq as ->. by destruct Hadd.
    + apply not_elem_of_nil.
Qed.

Lemma reset_untouched (s : State) (task : ref) :
  task ∉ tasks (db s) →
  heap (LazyDB_reset s) !! task = heap s !! task.
Proof.
  intros Hnin. cbn. by rewrite foldl_reset_at_lookup, decide_False.
Qed.

Lemma exec_step (ev : Event) (evs : list Event) (s s1 s' : State)
    (lab : Label) (labs : list Label) :
  step ev s = Some (lab, s1) → exec evs s1 = Some (labs, s') →
  exec (ev :: evs) s = Some (lab :: labs, s').
Proof. intros Hstep Hexec. apply exec_cons. eauto 10. Qed.

Lemma exec_app (evs1 evs2 : list Event) (s s1 s2 : State)
    (labs1 labs2 : list Label) :
  exec evs1 s = Some (labs1, s1) → exec evs2 s1 = Some (labs2, s2) →
  exec (evs1 ++ evs2) s = Some (labs1 ++ labs2, s2).
Proof.
  revert s labs1. induction evs1 as [|ev evs1 IH]; intros s labs1.
  - by intros [= <- <-].
  - intros (lab & s0 & labs' & Hstep & Hexec & ->)%exec_cons H2.
    cbn [app]. eapply exec_step; [done|]. by apply IH.
Qed.

(** [LazyDB.run(t)] for an unregistered [t] whose hook makes a task
    without dependencies, scheduled alone: the task is made, locked, run
    and released; the registry is as before. *)
Lemma leaf_run (s : State) (j : nat) (job : Job) (tg : list T)
    (body : list A → W → RunOutcome * W) (out : RunOutcome) (w : W) :
  jobs s !! j = Some job → pc job = AtRun →
  index (db s) !! jt job = None →
  on_missing (db s) (jt job) = ReturnTask tg [] body →
  body (jargs job) (world s) = (out, w) →
  ∃ s',
    exec [Advance j; Advance j; Advance j; Advance j] s =
      Some ([Tau; Tau; RunStart (length (heap s));
             RunEnd (length (heap s)) out], s')
    ∧ db s' = db s ∧ world s' = w
    ∧ length (jobs s') = length (jobs s)
    ∧ length (heap s') = S (length (heap s)).
Proof.
  intros Hj Hpc Hidx Hhook Hbody.
  pose proof (lookup_lt_Some _ _ _ Hj) as Hlt.
  set (h := length (heap s)).
  set (L := Lazy_init tg [] body).
  set (s1 := move j job (AtLock h) (set_heap (heap s ++ [L]) s)).
  set (job1 := set_pc (AtLock h) job).
  assert (Hj1 : jobs s1 !! j = Some job1).
  { cbn. by apply list_lookup_insert_eq. }
  assert (Hl1 : heap s1 !! h = Some L).
  { cbn. rewrite lookup_app_r by (unfold h; lia).
    unfold h. by rewrite Nat.sub_diag. }
  set (job2 := set_pc (AtGather h []) job1).
  set (s2 := set_jobs (<[j := job2]> (jobs s1) ++ spawn [])
               (set_heap (<[h := set_lock true L]> (heap s1)) s1)).
  assert (Hj2 : jobs s2 !! j = Some job2).
  { cbn. rewrite app_nil_r. apply list_lookup_insert_eq.
    by rewrite length_insert. }
  assert (Hl2 : heap s2 !! h = Some (set_lock true L)).
  { cbn. apply list_lookup_insert_eq. rewrite length_app. cbn.
    unfold h. lia. }
  set (job3 := set_pc (AtTaskRun h) job2).
  set (s3 := move j job2 (AtTaskRun h) s2).
  assert (Hj3 : jobs s3 !! j = Some job3).
  { cbn. rewrite app_nil_r. apply list_lookup_insert_eq.
    by rewrite !length_insert. }
  assert (Hstep1 : step (Advance j) s = Some (Tau, s1)).
  { apply step_cases. by apply Step_synthesized. }
  assert (Hstep2 : step (Advance j) s1 = Some (Tau, s2)).
  { apply step_cases.
    by apply (Step_acquire s1 j job1 h L Hj1 eq_refl Hl1). }
  assert (Hstep3 : step (Advance j) s2 = Some (RunStart h, s3)).
  { apply step_cases.
    by apply (Step_run_start s2 j job2 h [] (set_lock true L) []). }
  destruct (run_handler h out) as [r|e] eqn:Hh.
  - exists (store_release j job3 h (set_lock true L) r (set_world w s3)).
    split; [|split; [done|split; [done|split]]].
    + repeat (eapply exec_step; [eassumption|]).
      eapply exec_step; [|done]. apply step_cases.
      by apply (Step_run_stored s3 j job3 h (set_lock true L) out w r).
    + cbn. by rewrite app_nil_r, !length_insert.
    + cbn. rewrite !length_insert, length_app. cbn. lia.
  - exists (raise_release j job3 h (set_lock true L) e (set_world w s3)).
    split; [|split; [done|split; [done|split]]].
    + repeat (eapply exec_step; [eassumption|]).
      eapply exec_step; [|done]. apply step_cases.
      by apply (Step_run_raised s3 j job3 h (set_lock true L) out w e).
    + cbn. by rewrite app_nil_r, !length_insert.
    + cbn. rewrite !length_insert, length_app. cbn. lia.
Qed.

(** C10. When [on_missing(t)] returns a task for an unregistered [t],
    [LazyDB.run] resolves a new object and leaves [tasks] and [index] as
    they are. So a later [LazyDB.run(t)], while [t] is still unregistered,
    asks the hook again and resolves another new object; [LazyDB.reset]
    leaves the object alone as long as nobody adds it; and for a task
    without dependencies, two calls in a row execute the body twice. *)
Theorem synthesized_task_not_registered (s : State) (j : nat) (job : Job)
    (tg dp : list T) (body : list A → W → RunOutcome * W) :
  Inv s → jobs s !! j = Some job → pc job = AtRun →
  index (db s) !! jt job = None →
  on_missing (db s) (jt job) = ReturnTask tg dp body →
  ∃ s' task,
    step (Advance j) s = Some (Tau, s')
    ∧ heap s !! task = None
    ∧ heap s' !! task = Some (Lazy_init tg dp body)
    ∧ jobs s' !! j = Some (set_pc (AtLock task) job)
    ∧ db s' = db s
    ∧ (task ∉ tasks (db s')) ∧ (∀ t, index (db s') !! t ≠ Some task)
    ∧ (∀ evs labs s2 j2 job2,
         exec evs s' = Some (labs, s2) →
         jobs s2 !! j2 = Some job2 → pc job2 = AtRun → jt job2 = jt job →
         index (db s2) !! jt job = None →
         ∃ s3 task2,
           step (Advance j2) s2 = Some (Tau, s3)
           ∧ task2 ≠ task ∧ heap s2 !! task2 = None
           ∧ heap s3 !! task2 = Some (Lazy_init tg dp body)
           ∧ jobs s3 !! j2 = Some (set_pc (AtLock task2) job2)
           ∧ db s3 = db s2)
    ∧ (∀ evs labs s2,
         exec evs s' = Some (labs, s2) →
         Forall (λ ev, ev ≠ DbAdd task) evs →
         (task ∉ tasks (db s2))
         ∧ heap (LazyDB_reset s2) !! task = heap s2 !! task)
    ∧ (dp = [] → ∀ a out1 w1 out2 w2,
         body (jargs job) (world s) = (out1, w1) →
         body a w1 = (out2, w2) →
         ∃ s2,
           exec ([Advance j; Advance j; Advance j; Advance j]
                 ++ [Call (jt job) a]
                 ++ [Advance (length (jobs s)); Advance (length (jobs s));
                     Advance (length (jobs s)); Advance (length (jobs s))]) s
           = Some ([Tau; Tau; RunStart task; RunEnd task out1; Tau;
                    Tau; Tau; RunStart (S task); RunEnd (S task) out2], s2)
           ∧ world s2 = w2 ∧ db s2 = db s).
Proof.
  intros HI Hj Hpc Hidx Hhook.
  pose proof (lookup_lt_Some _ _ _ Hj) as Hlt.
  set (task := length (heap s)).
  set (s' := move j job (AtLock task)
               (set_heap (heap s ++ [Lazy_init tg dp body]) s)).
  assert (Hnin : task ∉ tasks (db s)).
  { intros Hin. pose proof (inv_tasks _ HI _ Hin). unfold task in *. lia. }
  exists s', task.
  split; [apply step_cases; by apply Step_synthesized|].
  split; [apply lookup_ge_None; unfold task; lia|].
  split.
  { cbn. rewrite lookup_app_r by (unfold task; lia).
    unfold task. by rewrite Nat.sub_diag. }
  split; [cbn; by apply list_lookup_insert_eq|].
  split; [done|]. split; [done|].
  split.
  { intros t Ht. pose proof (inv_index _ HI _ _ Ht). unfold task in *. lia. }
  split; [|split].
  - intros evs labs s2 j2 job2 Hexec Hj2 Hpc2 Hjt Hidx2.
    destruct (exec_stable _ _ _ _ Hexec) as [Hext Hm].
    assert (Hlen : task < length (heap s2)).
    { eapply heap_ext_length; [done|]. cbn. rewrite length_app. cbn.
      unfold task. lia. }
    exists (move j2 job2 (AtLock (length (heap s2)))
              (set_heap (heap s2 ++ [Lazy_init tg dp body]) s2)),
      (length (heap s2)).
    split.
    { apply step_cases. apply Step_synthesized; try done.
      - by rewrite Hjt.
      - rewrite Hm, Hjt. done. }
    split; [lia|]. split; [by apply lookup_ge_None|].
    split.
    { cbn. rewrite lookup_app_r by lia. by rewrite Nat.sub_diag. }
    split; [|done]. cbn. apply list_lookup_insert_eq.
    by eapply lookup_lt_Some.
  - intros evs labs s2 Hexec Hadd.
    assert (task ∉ tasks (db s2)) as Hnin2
      by (by eapply exec_unregistered).
    split; [done|]. by apply reset_untouched.
  - intros -> a out1 w1 out2 w2 Hb1 Hb2.
    destruct (leaf_run s j job tg body out1 w1 Hj Hpc Hidx Hhook Hb1)
      as (s1 & Hexec1 & Hdb1 & Hw1 & Hlen1 & Hheap1).
    set (n := length (jobs s)).
    set (job' := mkJob (jt job) a AtRun : Job).
    set (s1c := set_jobs (jobs s1 ++ [job']) s1).
    assert (Hjn : jobs s1c !! n = Some job').
    { cbn. rewrite lookup_app_r by (unfold n; lia).
      unfold n. by rewrite Hlen1, Nat.sub_diag. }
    assert (Hidx1 : index (db s1c) !! jt job' = None)
      by (cbn; by rewrite Hdb1).
    assert (Hhook1 : on_missing (db s1c) (jt job') = ReturnTask tg [] body)
      by (cbn; by rewrite Hdb1).
    assert (Hb2' : body (jargs job') (world s1c) = (out2, w2))
      by (cbn; by rewrite Hw1).
    destruct (leaf_run s1c n job' tg body out2 w2 Hjn eq_refl Hidx1 Hhook1
                Hb2')
      as (s2 & Hexec2 & Hdb2 & Hw2 & _ & _).
    exists s2. split; [|split; [done|by rewrite Hdb2]].
    replace (length (heap s1c)) with (S task) in Hexec2 by (by cbn).
    eapply (exec_app _ _ _ s1 _ [Tau; Tau; RunStart task; RunEnd task out1]);
      [exact Hexec1|].
    cbn [app]. eapply exec_step; [|exact Hexec2]. done.
Qed.

Lemma exec_defined (evs : list Event) (s : State) :
  is_Some (exec evs s) →
  exec evs s = Some (labels_of evs s, state_of evs s).
Proof.
  unfold labels_of, state_of. intros [[labs s'] ->]. done.
Qed.

Lemma Inv_state_of (evs : list Event) (s : State) :
  Inv s → Inv (state_of evs s).
Proof.
  intros HI. unfold state_of.
  destruct (exec evs s) as [[labs s']|] eqn:Hexec; [|done].
  by eapply Inv_exec.
Qed.

(** ** Truthiness of a task *)

(** X1. [bool(task)] tells whether the [result] property can be read:
    it is true exactly when [result] returns a value, false exactly when
    [result] raises [ValueError]. *)
Theorem Lazy_bool_result (l : Lazy) :
  (Lazy_bool l = true ↔ ∃ v, result l = Value v)
  ∧ (Lazy_bool l = false ↔ ∃ msg, result l = ValueError msg).
Proof.
  unfold Lazy_bool, result. destruct (_result l) as [r|].
  - destruct r; cbn; split; split; try done; eauto.
    all: by intros [? ?].
  - split; split; try done; eauto. by intros [? ?].
Qed.

(** ** What a transition leaves alone *)

(** X3. Only [add] and [clean] edit the registry: whatever else happens
    (calls, resolution by any interleaving, exceptions, resets), [tasks]
    and [index] stay as they are; and nothing ever replaces the
    [on_missing] hook. *)
Theorem registry_edited_only_by_add_clean (evs : list Event) (s s' : State)
    (labs : list Label) :
  exec evs s = Some (labs, s') →
  on_missing (db s') = on_missing (db s)
  ∧ (Forall (λ ev, registers ev = false) evs → db s' = db s).
Proof.
  revert s labs. induction evs as [|ev evs IH]; intros s labs.
  - by intros [= _ <-].
  - intros (lab & s1 & labs' & Hstep & Hexec & _)%exec_cons.
    destruct (IH _ _ Hexec) as [Hm Hdb].
    apply step_cases in Hstep.
    split.
    + rewrite Hm. by destruct (step_stable _ _ _ _ Hstep).
    + intros [Hev Hevs]%Forall_cons. rewrite (Hdb Hevs).
      destruct Hstep; cbn in *; done.
Qed.

(** X4. [reset()] of a task whose evaluation is in flight (a coroutine is
    inside its lock) changes nothing at all: the state after [task.reset()]
    is the state before, and [db.reset()] leaves that task as it is. The
    evaluation goes on and will store its outcome. *)
Theorem reset_in_flight_is_noop (s : State) (j : nat) (job : Job)
    (task : ref) :
  Inv s → jobs s !! j = Some job → holds task job →
  step (TaskReset task) s = Some (Tau, s)
  ∧ heap (LazyDB_reset s) !! task = heap s !! task.
Proof.
  intros HI Hj Hh.
  destruct (inv_holder _ HI _ _ _ Hj Hh) as (l & Hl & Hlk).
  pose proof (inv_locked _ HI _ _ Hl Hlk) as Hr.
  assert (Hreset : Lazy_reset l = l).
  { destruct l. cbn in *. by subst. }
  split.
  - cbn. unfold reset_at. rewrite Hl, Hreset, list_insert_id by done.
    by destruct s.
  - cbn. rewrite foldl_reset_at_lookup, Hl. case_decide; [|done].
    cbn. by rewrite Hreset.
Qed.

(** ** Locks are given back *)

Lemma holds_functional (job : Job) (t1 t2 : ref) :
  holds t1 job → holds t2 job → t1 = t2.
Proof. unfold holds. destruct (pc job); try done; congruence. Qed.

(** Close a goal about [holds] with the position the context gives. *)
Ltac by_pc :=
  unfold holds;
  match goal with Hpc : pc _ = _ |- _ => rewrite Hpc; cbn; by auto end.

Lemma locks_owned_step (s s' : State) (ev : Event) (lab : Label) :
  locks_owned s → Step s ev lab s' → locks_owned s'.
Proof.
  intros HO HS r l' Hl' Hlk'.
  assert (Hkeep : ∀ j job p,
            jobs s !! j = Some job → ¬ holds r job →
            (∃ l, heap s !! r = Some l ∧ _lock l = true) →
            ∃ i jobi, <[j := set_pc p job]> (jobs s) !! i = Some jobi
                      ∧ holds r jobi).
  { intros j job p Hj Hnh (l & Hl & Hlk).
    destruct (HO _ _ Hl Hlk) as (i & jobi & Hi & Hhi).
    exists i, jobi. split; [|done].
    rewrite list_lookup_insert_ne; [done|]. intros <-. by simplify_eq. }
  assert (Hother : ∀ j job task p (l0 l1 : Lazy),
            <[task := l1]> (heap s) !! r = Some l' →
            jobs s !! j = Some job → holds task job →
            heap s !! task = Some l0 → _lock l1 = false →
            ∃ i jobi, <[j := set_pc p job]> (jobs s) !! i = Some jobi
                      ∧ holds r jobi).
  { intros j job task p l0 l1 Hr Hj Hh Hl0 Hl1.
    rewrite (heap_insert_lookup _ _ l0) in Hr by done.
    case_decide; [simplify_eq; congruence|].
    apply Hkeep; [done| |eauto].
    intros Hhr. by pose proof (holds_functional _ _ _ Hh Hhr). }
  destruct HS; cbn in *.
  - (* call *)
    destruct (HO _ _ Hl' Hlk') as (i & jobi & Hi & Hhi).
    exists i, jobi. split; [by apply lookup_app_l_Some|done].
  - apply (Hkeep j job); [done| |eauto]. by_pc.
  - apply (Hkeep j job); [done| |eauto]. by_pc.
  - apply (Hkeep j job); [done|by_pc|].
    apply lookup_app_Some in Hl' as [Hl'|[_ Hl']]; [eauto|].
    apply list_lookup_singleton_Some in Hl' as [_ <-]. done.
  - apply (Hkeep j job); [done| |eauto]. by_pc.
  - (* the lock is taken *)
    rewrite (heap_insert_lookup _ _ l) in Hl' by done.
    case_decide as Heq.
    + subst r. exists j. eexists. split.
      * apply lookup_app_l_Some, list_lookup_insert_eq.
        by eapply lookup_lt_Some.
      * done.
    + destruct (Hkeep j job
                  (AtGather task
                     (seq (length (jobs s)) (length (dependencies l))))
                  ltac:(eassumption)) as (i & jobi & Hi & Hhi); [|eauto|].
      { by_pc. }
      exists i, jobi. split; [by apply lookup_app_l_Some|done].
  - eapply Hother; [exact Hl'|eassumption|by_pc|eassumption|done].
  - (* the body starts: the holder stays the holder *)
    destruct (HO _ _ Hl' Hlk') as (i & jobi & Hi & Hhi).
    destruct (decide (i = j)) as [->|Hne].
    + simplify_eq. exists j. eexists. split.
      * apply list_lookup_insert_eq. by eapply lookup_lt_Some.
      * unfold holds in *.
        match goal with Hpc : pc _ = _ |- _ => by rewrite Hpc in Hhi end.
    + exists i, jobi. by rewrite list_lookup_insert_ne.
  - eapply Hother; [exact Hl'|eassumption|by_pc|eassumption|done].
  - eapply Hother; [exact Hl'|eassumption|by_pc|eassumption|done].
  - eapply Hother; [exact Hl'|eassumption|by_pc|eassumption|done].
  - (* a task is constructed *)
    apply lookup_app_Some in Hl' as [Hl'|[_ Hl']]; [eauto|].
    apply list_lookup_singleton_Some in Hl' as [_ <-]. done.
  - unfold LazyDB_add in *. destruct (heap s !! task); [|done].
    cbn in *. simplify_eq. cbn in *. eauto.
  - eauto.
  - rewrite foldl_reset_at_lookup in Hl'.
    destruct (heap s !! r) as [l|] eqn:Hl; [|by case_decide].
    apply (HO r l); [done|]. case_decide; cbn in *; by simplify_eq.
  - rewrite reset_at_lookup in Hl'.
    destruct (heap s !! r) as [l|] eqn:Hl; [|by case_decide].
    apply (HO r l); [done|]. case_decide; cbn in *; by simplify_eq.
Qed.

(** X5. No lock is left behind. From a state in which every held lock has
    its coroutine (the empty registry is one), every lock that is held
    later is still held by a coroutine that is inside it; so once all the
    coroutines have returned or raised, every lock is free, also after
    exceptions. *)
Theorem no_lock_left_held (evs : list Event) (s s' : State)
    (labs : list Label) :
  locks_owned s → exec evs s = Some (labs, s') →
  locks_owned s'
  ∧ (Forall finished (jobs s') →
       ∀ task l, heap s' !! task = Some l → _lock l = false).
Proof.
  intros HO Hexec.
  assert (HO' : locks_owned s').
  { revert s labs HO Hexec. induction evs as [|ev evs IH]; intros s labs HO.
    - by intros [= _ <-].
    - intros (lab & s1 & labs' & Hstep & Hexec & _)%exec_cons.
      eapply IH; [|done]. eapply locks_owned_step; [done|].
      by apply step_cases. }
  split; [done|]. intros Hfin task l Hl.
  destruct (_lock l) eqn:Hlk; [|done].
  destruct (HO' _ _ Hl Hlk) as (j & job & Hj & Hh).
  rewrite Forall_lookup in Hfin. specialize (Hfin _ _ Hj).
  unfold finished, holds in *. by destruct (pc job).
Qed.

(** ** What a cell can hold *)

Lemma deps_failure_own (task : ref) (dep_res : list Result) (f : Result) :
  deps_failure task dep_res = Some f → own_outcome task f.
Proof.
  unfold deps_failure.
  destruct (forallb Result_bool dep_res) eqn:Hall; [done|]. cbn.
  intros [= <-]. cbn. split; [done|]. rewrite filter_failures. split.
  - assert (Hex : Exists (not ∘ (λ r, Is_true (Result_bool r))) dep_res).
    { apply not_Forall_Exists; [apply _|]. intros HF.
      apply forallb_True, Is_true_true_1 in HF. congruence. }
    apply Exists_exists in Hex as (x & Hin & Hx).
    intros Hnil.
    assert (Hxin : x ∈ filter is_Failure dep_res).
    { apply list_elem_of_filter. split; [|done].
      destruct x; cbn in *; done. }
    rewrite Hnil in Hxin. by apply elem_of_nil in Hxin.
  - apply Forall_forall. intros x Hx.
    by apply list_elem_of_filter in Hx as [? _].
Qed.

Lemma run_handler_own (task : ref) (out : RunOutcome) (r : Result) :
  run_handler task out = inl r → own_outcome task r.
Proof. destruct out; cbn; intros [= <-]; done. Qed.

Lemma cells_own_step (s s' : State) (ev : Event) (lab : Label) :
  cells_own s → Step s ev lab s' → cells_own s'.
Proof.
  intros HC HS r l' o Hl' Ho.
  assert (Hset : ∀ task (l0 l1 : Lazy),
            <[task := l1]> (heap s) !! r = Some l' →
            heap s !! task = Some l0 →
            (_result l1 = _result l0
             ∨ ∃ o1, _result l1 = Some o1 ∧ own_outcome task o1) →
            own_outcome r o).
  { intros task l0 l1 Hr Hl0 Hres.
    rewrite (heap_insert_lookup _ _ l0) in Hr by done.
    case_decide; [|by eapply HC]. simplify_eq.
    destruct Hres as [Heq|(o1 & Ho1 & Hown)].
    - eapply HC; [done|]. congruence.
    - congruence. }
  assert (Hnew : ∀ (l1 : Lazy),
            (heap s ++ [l1]) !! r = Some l' → _result l1 = None →
            own_outcome r o).
  { intros l1 Hr Hn. apply lookup_app_Some in Hr as [Hr|[_ Hr]].
    - by eapply HC.
    - apply list_lookup_singleton_Some in Hr as [_ <-]. congruence. }
  destruct HS; cbn in *; try (by eapply HC).
  - by eapply Hnew.
  - eapply Hset; [exact Hl'|eassumption|by left].
  - eapply Hset; [exact Hl'|eassumption|].
    right. eexists. split; [done|]. by eapply deps_failure_own.
  - eapply Hset; [exact Hl'|eassumption|].
    right. eexists. split; [done|]. by eapply run_handler_own.
  - eapply Hset; [exact Hl'|eassumption|by left].
  - eapply Hset; [exact Hl'|eassumption|by left].
  - by eapply Hnew.
  - unfold LazyDB_add in *. destruct (heap s !! task); [|done].
    cbn in *. simplify_eq. by eapply HC.
  - rewrite foldl_reset_at_lookup in Hl'.
    destruct (heap s !! r) as [l|] eqn:Hl; [|by case_decide].
    case_decide; cbn in *; simplify_eq; by eapply HC.
  - rewrite reset_at_lookup in Hl'.
    destruct (heap s !! r) as [l|] eqn:Hl; [|by case_decide].
    case_decide; cbn in *; simplify_eq; by eapply HC.
Qed.

(** X6. A cell only ever holds an outcome of its own task. From a state
    where this is so (the empty registry is one), in every state reached:
    the cell of a task holds [Ok] of that very task, a [TaskFailure], or a
    [DependencyFailure] of that very task that lists at least one outcome
    and only failures; it never holds a [MissingFailure]. So a truthy task
    holds [Ok(task, v)] with itself as the task. *)
Theorem cells_hold_own_outcomes (evs : list Event) (s s' : State)
    (labs : list Label) :
  cells_own s → exec evs s = Some (labs, s') →
  cells_own s'
  ∧ (∀ task l, heap s' !! task = Some l → Lazy_bool l = true →
       ∃ v, _result l = Some (Ok task v)).
Proof.
  intros HC Hexec.
  assert (HC' : cells_own s').
  { revert s labs HC Hexec. induction evs as [|ev evs IH]; intros s labs HC.
    - by intros [= _ <-].
    - intros (lab & s1 & labs' & Hstep & Hexec & _)%exec_cons.
      eapply IH; [|done]. eapply cells_own_step; [done|].
      by apply step_cases. }
  split; [done|]. intros task l Hl Hb. unfold Lazy_bool in Hb.
  destruct (_result l) as [r|] eqn:Hr; [|done].
  pose proof (HC' _ _ _ Hl Hr) as Hown.
  destruct r; cbn in *; try done. subst. eauto.
Qed.

(** ** Dependencies are resolved without the caller's arguments *)

Lemma insert_args (js : list Job) (j c : nat) (job cj : Job) (p : PC) :
  js !! j = Some job → js !! c = Some cj →
  ∃ cj', <[j := set_pc p job]> js !! c = Some cj' ∧ jargs cj' = jargs cj.
Proof.
  intros Hj Hc. destruct (decide (c = j)) as [->|Hne].
  - rewrite list_lookup_insert_eq by (by eapply lookup_lt_Some).
    simplify_eq. eauto.
  - rewrite list_lookup_insert_ne by done. eauto.
Qed.

Lemma children_bare_move (s : State) (j : nat) (job : Job) (p : PC) :
  children_bare s → jobs s !! j = Some job →
  (∀ t c, p = AtGather t c → pc job = AtGather t c) →
  ∀ j0 job0 task children c,
    <[j := set_pc p job]> (jobs s) !! j0 = Some job0 →
    pc job0 = AtGather task children → c ∈ children →
    ∃ cj, <[j := set_pc p job]> (jobs s) !! c = Some cj ∧ jargs cj = [].
Proof.
  intros HB Hj Hp j0 job0 task children c Hj0 Hpc0 Hc.
  destruct (insert_gather_back _ _ _ _ Hj Hp _ _ _ _ Hj0 Hpc0)
    as (job1 & Hj1 & Hpc1).
  destruct (HB _ _ _ _ _ Hj1 Hpc1 Hc) as (cj & Hcj & Hargs).
  destruct (insert_args _ _ _ _ _ p Hj Hcj) as (cj' & Hcj' & Heq).
  exists cj'. split; [done|congruence].
Qed.

Lemma children_bare_step (s s' : State) (ev : Event) (lab : Label) :
  children_bare s → Step s ev lab s' → children_bare s'.
Proof.
  intros HB HS. destruct HS; unfold children_bare; cbn;
    try (apply children_bare_move; [done|done|]; by intros ? ? [=]);
    try done.
  - (* call *)
    intros j0 job0 task children c Hj0 Hpc0 Hc. cbn in *.
    destruct (app_gather_back _ _ _ _ _ _ _ Hj0 Hpc0) as (job1 & Hj1 & Hpc1).
    destruct (HB _ _ _ _ _ Hj1 Hpc1 Hc) as (cj & Hcj & Hargs).
    exists cj. split; [by apply lookup_app_l_Some|done].
  - (* the lock is taken and the children are made *)
    match goal with Hj : jobs _ !! _ = Some _ |- _ => rename Hj into Hjob end.
    intros j0 job0 task0 children c Hj0 Hpc0 Hc. cbn in *.
    destruct (acquire_jobs_lookup _ _ _ _ _ _ _ Hjob Hj0)
      as [[-> ->]|[[Hne Hj0']|[_ Hj0']]].
    + cbn in Hpc0. injection Hpc0 as <- <-.
      apply list_elem_of_lookup in Hc as [i Hi].
      apply lookup_seq in Hi as [-> Hi].
      destruct (lookup_lt_is_Some_2 (spawn (dependencies l) : list Job) i)
        as [cj Hcj].
      { unfold spawn. by rewrite length_map. }
      exists cj. split.
      * rewrite lookup_app_r by (rewrite length_insert; lia).
        rewrite length_insert.
        by replace (length (jobs s) + i - length (jobs s)) with i by lia.
      * by apply spawn_lookup in Hcj as (_ & ? & _).
    + destruct (HB _ _ _ _ _ Hj0' Hpc0 Hc) as (cj & Hcj & Hargs).
      destruct (insert_args _ _ _ _ _
                  (AtGather task
                     (seq (length (jobs s)) (length (dependencies l))))
                  Hjob Hcj) as (cj' & Hcj' & Heq).
      exists cj'. split; [by apply lookup_app_l_Some|congruence].
    + apply spawn_lookup in Hj0' as (Hrun & _). congruence.
  - unfold LazyDB_add in *. destruct (heap s !! task); [|done].
    cbn in *. by simplify_eq.
Qed.

(** X7. [recurse(dep)] passes no [*args] on. From a state where the
    children of every [gather] were called without arguments (the empty
    registry is one), this stays so; hence when the [run] body of a task
    ends in a coroutine that resolves it as a dependency, the body was
    given the empty argument list, whatever arguments the outermost caller
    passed to [LazyDB.run]. *)
Theorem dependencies_run_without_args (evs : list Event) (s s' : State)
    (labs : list Label) :
  children_bare s → exec evs s = Some (labs, s') →
  children_bare s'
  ∧ ∀ j (job : Job) task children c t (out : RunOutcome) (s'' : State),
      jobs s' !! j = Some job → pc job = AtGather task children →
      c ∈ children →
      step (Advance c) s' = Some (RunEnd t out, s'') →
      ∃ l, heap s' !! t = Some l ∧ run l [] (world s') = (out, world s'').
Proof.
  intros HB Hexec.
  assert (HB' : children_bare s').
  { revert s labs HB Hexec. induction evs as [|ev evs IH]; intros s labs HB.
    - by intros [= _ <-].
    - intros (lab & s1 & labs' & Hstep & Hexec & _)%exec_cons.
      eapply IH; [|done]. eapply children_bare_step; [done|].
      by apply step_cases. }
  split; [done|].
  intros j job task children c t out s'' Hj Hpc Hc Hstep.
  destruct (HB' _ _ _ _ _ Hj Hpc Hc) as (cj & Hcj & Hargs).
  apply step_cases in Hstep.
  inversion Hstep as
    [| | | | | | | |c' job' t' l out' w r Hc' Hpc' Hl Hrun Hh
     |c' job' t' l out' w e Hc' Hpc' Hl Hrun Hh| | | | | |]; subst.
  - exists l. split; [done|]. assert (job' = cj) as -> by congruence.
    by rewrite <- Hargs.
  - exists l. split; [done|]. assert (job' = cj) as -> by congruence.
    by rewrite <- Hargs.
Qed.

(** ** A task that depends on itself *)

Lemma gather_blocked (s : State) (children : list nat) (task : ref) :
  children ≠ [] →
  (∀ c, c ∈ children → ∃ cj, jobs s !! c = Some cj ∧ pc cj = AtLock task) →
  mapM (job_result (jobs s)) children = None
  ∧ ∀ k, k ∈ children → job_raised (jobs s) k = None.
Proof.
  intros Hne Hch. split.
  - destruct children as [|c rest]; [done|].
    destruct (Hch c) as (cj & Hcj & Hpc); [apply list_elem_of_here|].
    destruct (mapM _ (c :: rest)) as [dep_res|] eqn:Hm; [|done].
    apply mapM_Some in Hm. inversion Hm as [|? r ? ? Hc _]; subst.
    unfold job_result in Hc. by rewrite Hcj, Hpc in Hc.
  - intros k Hk. destruct (Hch k Hk) as (cj & Hcj & Hpc).
    unfold job_raised. by rewrite Hcj, Hpc.
Qed.

(** While [j] holds the lock of [task] and waits for children that wait
    for that lock, [j] and every coroutine waiting for the lock stay where
    they are. *)
Lemma stuck_jobs_kept (s s' : State) (ev : Event) (lab : Label)
    (j : nat) (task : ref) (i : nat) (jobi : Job) :
  Inv s → waits_on_itself j task s → Step s ev lab s' →
  jobs s !! i = Some jobi → i = j ∨ pc jobi = AtLock task →
  jobs s' !! i = Some jobi.
Proof.
  intros HI (job & children & Hj & Hpc & Hne & Hch) HS Hi Hcase.
  assert (Hh : holds task job) by (unfold holds; by rewrite Hpc).
  destruct (inv_holder _ HI _ _ _ Hj Hh) as (lt & Hlt & Hlk).
  destruct (gather_blocked s children task Hne Hch) as [Hblocked Hnoraise].
  assert (Hii : pc jobi = AtGather task children ∨ pc jobi = AtLock task).
  { destruct Hcase as [->|?]; [left; congruence|by right]. }
  clear Hcase.
  destruct HS; cbn.
  all: try done.
  all: try (by apply lookup_app_l_Some).
  all: try (destruct (decide (i = j0)) as [->|Hneq];
            [exfalso; simplify_eq; destruct Hii as [Hii|Hii];
             congruence
            |first [ by rewrite list_lookup_insert_ne
                   | apply lookup_app_l_Some;
                     by rewrite list_lookup_insert_ne ]]).
  - (* gather re-raises: not for [j], whose children wait *)
    destruct (decide (i = j0)) as [->|Hneq];
      [|by rewrite list_lookup_insert_ne].
    exfalso. simplify_eq. destruct Hii as [Hii|Hii]; [|congruence].
    match goal with
    | Hk : _ ∈ _, He : job_raised _ _ = Some _ |- _ =>
        assert (children0 = children) as -> by congruence;
        rewrite (Hnoraise _ Hk) in He; discriminate He
    end.
  - unfold LazyDB_add in *. destruct (heap s !! task0); [|done].
    cbn in *. by simplify_eq.
Qed.

(** X8. A dependency on oneself is a deadlock that nothing in the module
    ends. When a coroutine holds the lock of a task and awaits children
    that all wait for that same lock (as happens when the task lists one of
    its own targets among its dependencies), then whatever the scheduler
    and the callers of [run], [add], [clean] and [reset] do afterwards, as
    long as none of these coroutines is cancelled from outside: the
    coroutine and its children stay where they are and the scheduler cannot
    resume them, [run] of the task is never started, the lock stays held
    and the cell stays empty. *)
Theorem self_dependency_deadlocks (evs : list Event) (s s' : State)
    (labs : list Label) (j : nat) (task : ref) :
  Inv s → waits_on_itself j task s → exec evs s = Some (labs, s') →
  waits_on_itself j task s'
  ∧ Forall (λ lab, lab ≠ RunStart task ∧ ∀ out, lab ≠ RunEnd task out) labs
  ∧ (∃ l, heap s' !! task = Some l ∧ _lock l = true ∧ _result l = None)
  ∧ step (Advance j) s' = None
  ∧ (∀ k, step (Propagate j k) s' = None)
  ∧ (∀ c cj, jobs s' !! c = Some cj → pc cj = AtLock task →
       step (Advance c) s' = None).
Proof.
  intros HI HW Hexec.
  assert (Hall : waits_on_itself j task s'
                 ∧ Forall (λ lab, lab ≠ RunStart task
                                  ∧ ∀ out, lab ≠ RunEnd task out) labs).
  { revert s labs HI HW Hexec.
    induction evs as [|ev evs IH]; intros s labs HI HW.
    - intros [= <- <-]. by split.
    - intros (lab & s1 & labs' & Hstep & Hexec & ->)%exec_cons.
      pose proof (Inv_step _ _ _ _ HI Hstep) as HI1.
      apply step_cases in Hstep.
      pose proof HW as (job & children & Hj & Hpc & Hne & Hch).
      assert (HW1 : waits_on_itself j task s1).
      { exists job, children. split; [|split; [done|split; [done|]]].
        - apply (stuck_jobs_kept s s1 ev lab j task j job HI HW Hstep Hj).
          by left.
        - intros c Hc. destruct (Hch c Hc) as (cj & Hcj & Hpcc).
          exists cj. split; [|done].
          apply (stuck_jobs_kept s s1 ev lab j task c cj HI HW Hstep Hcj).
          by right. }
      destruct (IH _ _ HI1 HW1 Hexec) as [HW' Hlabs].
      split; [done|]. constructor; [|done].
      pose proof (stuck_jobs_kept _ _ _ _ _ _ _ _ HI HW Hstep Hj
                    (or_introl eq_refl)) as Hj1.
      assert (Hh : holds task job) by (unfold holds; by rewrite Hpc).
      split.
      + intros ->. inversion Hstep as
          [| | | | | | |j0 job0 t0 ch0 l0 dr Hj0 Hpc0 Hl0 Hm Hf| | | | | | | |];
          subst.
        assert (Hh0 : holds task job0) by (unfold holds; by rewrite Hpc0).
        pose proof (inv_unique _ HI _ _ _ _ _ Hj Hj0 Hh Hh0) as ->.
        cbn in Hj1.
        rewrite list_lookup_insert_eq in Hj1 by (by eapply lookup_lt_Some).
        simplify_eq; try (cbn in *; congruence).
      + intros out ->. inversion Hstep as
          [| | | | | | | |j0 job0 t0 l0 out0 w r Hj0 Hpc0 Hl0 Hrun Hhd
           |j0 job0 t0 l0 out0 w e Hj0 Hpc0 Hl0 Hrun Hhd| | | | | |]; subst.
        all: assert (Hh0 : holds task job0)
               by (unfold holds; by rewrite Hpc0).
        all: pose proof (inv_unique _ HI _ _ _ _ _ Hj Hj0 Hh Hh0) as ->.
        all: simplify_eq; try congruence. }
  destruct Hall as [HW' Hlabs].
  pose proof (Inv_exec _ _ _ _ HI Hexec) as HI'.
  destruct HW' as (job & children & Hj & Hpc & Hne & Hch).
  assert (Hh : holds task job) by (unfold holds; by rewrite Hpc).
  destruct (inv_holder _ HI' _ _ _ Hj Hh) as (l & Hl & Hlk).
  destruct (gather_blocked s' children task Hne Hch) as [Hblocked Hnoraise].
  split; [by exists job, children|]. split; [done|].
  split; [exists l; split; [done|split; [done|]];
          by eapply (inv_locked _ HI')|].
  split; [|split].
  - cbn. unfold advance. rewrite Hj. cbn. rewrite Hpc.
    unfold run_after_deps. rewrite Hl. cbn. by rewrite Hblocked.
  - intros k. cbn. unfold gather_raised. rewrite Hj. cbn. rewrite Hpc.
    case_bool_decide as Hk; [|done]. by rewrite (Hnoraise k Hk).
  - intros c cj Hc Hpcc. cbn. unfold advance. rewrite Hc. cbn.
    rewrite Hpcc. unfold run_cached. rewrite Hl. cbn. by rewrite Hlk.
Qed.

(** ** One caller, one registered task *)

(** [LazyDB.run(t)] for a registered task without dependencies whose cell
    is empty and whose lock is free, scheduled alone. *)
Lemma registered_leaf_run (s : State) (j : nat) (job : Job) (task : ref)
    (l : Lazy) (out : RunOutcome) (w : W) :
  jobs s !! j = Some job → pc job = AtRun →
  index (db s) !! jt job = Some task →
  heap s !! task = Some l → _lock l = false → _result l = None →
  dependencies l = [] →
  run l (jargs job) (world s) = (out, w) →
  ∃ s' l',
    exec [Advance j; Advance j; Advance j; Advance j] s =
      Some ([Tau; Tau; RunStart task; RunEnd task out], s')
    ∧ db s' = db s ∧ world s' = w
    ∧ heap s' = <[task := l']> (heap s)
    ∧ _lock l' = false
    ∧ _result l' = match run_handler task out with
                   | inl r => Some r
                   | inr _ => None
                   end
    ∧ (pc <$> jobs s' !! j) =
        Some (match run_handler task out with
              | inl r => Returned r
              | inr e => Raised e
              end).
Proof.
  intros Hj Hpc Hidx Hl Hlk Hres Hdeps Hrun.
  pose proof (lookup_lt_Some _ _ _ Hj) as Hlt.
  pose proof (lookup_lt_Some _ _ _ Hl) as Hlt'.
  set (s1 := move j job (AtLock task) s).
  set (job1 := set_pc (AtLock task) job).
  assert (Hj1 : jobs s1 !! j = Some job1).
  { cbn. by apply list_lookup_insert_eq. }
  set (job2 := set_pc (AtGather task
                 (seq (length (jobs s1)) (length (dependencies l)))) job1).
  set (s2 := set_jobs (<[j := job2]> (jobs s1) ++ spawn (dependencies l))
               (set_heap (<[task := set_lock true l]> (heap s1)) s1)).
  assert (Hj2 : jobs s2 !! j = Some job2).
  { cbn. apply lookup_app_l_Some, list_lookup_insert_eq.
    by rewrite length_insert. }
  assert (Hl2 : heap s2 !! task = Some (set_lock true l)).
  { cbn. by apply list_lookup_insert_eq. }
  set (job3 := set_pc (AtTaskRun task) job2).
  set (s3 := move j job2 (AtTaskRun task) s2).
  assert (Hj3 : jobs s3 !! j = Some job3).
  { cbn. apply list_lookup_insert_eq.
    rewrite length_app, !length_insert. lia. }
  assert (Hstep1 : step (Advance j) s = Some (Tau, s1)).
  { apply step_cases. by apply Step_found. }
  assert (Hstep2 : step (Advance j) s1 = Some (Tau, s2)).
  { apply step_cases.
    by apply (Step_acquire s1 j job1 task l Hj1 eq_refl Hl). }
  assert (Hstep3 : step (Advance j) s2 = Some (RunStart task, s3)).
  { apply step_cases.
    apply (Step_run_start s2 j job2 task
             (seq (length (jobs s1)) (length (dependencies l)))
             (set_lock true l) []); try done.
    by rewrite Hdeps. }
  destruct (run_handler task out) as [r|e] eqn:Hh.
  - exists (store_release j job3 task (set_lock true l) r (set_world w s3)),
      (set_lock false (set_result (Some r) (set_lock true l))).
    split; [|split; [done|split; [done|split; [|split; [done|split]]]]].
    + repeat (eapply exec_step; [eassumption|]).
      eapply exec_step; [|done]. apply step_cases.
      by apply (Step_run_stored s3 j job3 task (set_lock true l) out w r).
    + cbn. by rewrite list_insert_insert_eq.
    + done.
    + cbn. rewrite list_lookup_insert_eq; [done|].
      rewrite length_insert, length_app, !length_insert. lia.
  - exists (raise_release j job3 task (set_lock true l) e (set_world w s3)),
      (set_lock false (set_lock true l)).
    split; [|split; [done|split; [done|split; [|split; [done|split]]]]].
    + repeat (eapply exec_step; [eassumption|]).
      eapply exec_step; [|done]. apply step_cases.
      by apply (Step_run_raised s3 j job3 task (set_lock true l) out w e).
    + cbn. by rewrite list_insert_insert_eq.
    + done.
    + cbn. rewrite list_lookup_insert_eq; [done|].
      rewrite length_insert, length_app, !length_insert. lia.
Qed.

(** X9. One caller of a registered task that has no dependencies, an empty
    cell and a free lock: the body of [run] is executed exactly once, with
    the caller's arguments, on the world as it is; the coroutine ends with
    the handled outcome ([Ok], the [TaskFailure], or the exception
    raised); the cell holds that outcome (or stays empty for an exception),
    the lock is free again, and no other object and nothing of the
    registry has changed. *)
Theorem leaf_resolution (s : State) (t : T) (a : list A) (task : ref)
    (l : Lazy) (out : RunOutcome) (w : W) :
  index (db s) !! t = Some task →
  heap s !! task = Some l → _lock l = false → _result l = None →
  dependencies l = [] →
  run l a (world s) = (out, w) →
  ∃ s' l',
    exec [Call t a; Advance (length (jobs s)); Advance (length (jobs s));
          Advance (length (jobs s)); Advance (length (jobs s))] s =
      Some ([Tau; Tau; Tau; RunStart task; RunEnd task out], s')
    ∧ db s' = db s ∧ world s' = w
    ∧ heap s' = <[task := l']> (heap s)
    ∧ _lock l' = false
    ∧ _result l' = match run_handler task out with
                   | inl r => Some r
                   | inr _ => None
                   end
    ∧ (pc <$> jobs s' !! length (jobs s)) =
        Some (match run_handler task out with
              | inl r => Returned r
              | inr e => Raised e
              end).
Proof.
  intros Hidx Hl Hlk Hres Hdeps Hrun.
  set (n := length (jobs s)).
  set (job := mkJob t a AtRun : Job).
  set (sc := set_jobs (jobs s ++ [job]) s).
  assert (Hjn : jobs sc !! n = Some job).
  { cbn. rewrite lookup_app_r by (unfold n; lia).
    unfold n. by rewrite Nat.sub_diag. }
  destruct (registered_leaf_run sc n job task l out w Hjn eq_refl Hidx Hl
              Hlk Hres Hdeps Hrun)
    as (s' & l' & Hexec & Hdb & Hw & Hheap & Hlk' & Hres' & Hpc').
  exists s', l'. split; [|done].
  eapply exec_step; [|exact Hexec]. done.
Qed.

(** X10. [reset()] makes a task run again. A registered task without
    dependencies whose lock is free, whatever its cell holds: after
    [task.reset()] (or [db.reset()], when the task is in [tasks]) the next
    caller executes the body of [run] again, on the world as it is now, and
    the new outcome replaces the old one. *)
Theorem reset_then_resolve_runs_again (s : State) (ev : Event) (t : T)
    (a : list A) (task : ref) (l : Lazy) (out : RunOutcome) (w : W) :
  ev = TaskReset task ∨ (ev = DbReset ∧ task ∈ tasks (db s)) →
  index (db s) !! t = Some task →
  heap s !! task = Some l → _lock l = false →
  dependencies l = [] →
  run l a (world s) = (out, w) →
  ∃ s' l',
    exec [ev; Call t a; Advance (length (jobs s));
          Advance (length (jobs s)); Advance (length (jobs s));
          Advance (length (jobs s))] s =
      Some ([Tau; Tau; Tau; Tau; RunStart task; RunEnd task out], s')
    ∧ world s' = w
    ∧ heap s' !! task = Some l'
    ∧ _lock l' = false
    ∧ _result l' = match run_handler task out with
                   | inl r => Some r
                   | inr _ => None
                   end.
Proof.
  intros Hev Hidx Hl Hlk Hdeps Hrun.
  set (n := length (jobs s)).
  set (job := mkJob t a AtRun : Job).
  assert (∃ sr, step ev s = Some (Tau, sr)
                ∧ heap sr !! task = Some (Lazy_reset l)
                ∧ db sr = db s ∧ world sr = world s ∧ jobs sr = jobs s)
    as (sr & Hstep & Hlr & Hdbr & Hwr & Hjr).
  { destruct Hev as [->|[-> Hin]]; eexists; (split; [done|]); cbn.
    - split; [|done]. by rewrite reset_at_lookup, decide_True, Hl.
    - split; [|done]. by rewrite foldl_reset_at_lookup, decide_True, Hl. }
  set (sc := set_jobs (jobs sr ++ [job]) sr).
  assert (Hjn : jobs sc !! n = Some job).
  { cbn. rewrite Hjr. rewrite lookup_app_r by (unfold n; lia).
    unfold n. by rewrite Nat.sub_diag. }
  assert (Hidx' : index (db sc) !! jt job = Some task)
    by (cbn; by rewrite Hdbr).
  assert (Hrun' : run (Lazy_reset l) (jargs job) (world sc) = (out, w))
    by (cbn; by rewrite Hwr).
  destruct (registered_leaf_run sc n job task (Lazy_reset l) out w Hjn
              eq_refl Hidx' Hlr Hlk eq_refl Hdeps Hrun')
    as (s' & l' & Hexec & Hdb & Hw & Hheap & Hlk' & Hres' & Hpc').
  exists s', l'. split; [|split; [done|split; [|done]]].
  - eapply exec_step; [exact Hstep|].
    eapply exec_step; [|exact Hexec]. done.
  - rewrite Hheap. apply list_lookup_insert_eq. by eapply lookup_lt_Some.
Qed.

(** X11. [clean()] forgets the tasks but does not touch them. After
    [clean()], with the default [on_missing], every identifier resolves to
    [MissingFailure], also one that was registered and resolved before;
    the objects themselves keep their cells and locks, and no body
    runs. *)
Theorem clean_then_every_identifier_is_missing (s : State) (t : T)
    (a : list A) :
  on_missing (db s) = on_missing_default →
  ∃ s',
    exec [DbClean; Call t a; Advance (length (jobs s))] s =
      Some ([Tau; Tau; Tau], s')
    ∧ job_result (jobs s') (length (jobs s)) = Some (MissingFailure t)
    ∧ heap s' = heap s ∧ world s' = world s
    ∧ tasks (db s') = [] ∧ index (db s') = ∅.
Proof.
  intros Hhook.
  set (n := length (jobs s)).
  set (job := mkJob t a AtRun : Job).
  set (sc := set_jobs (jobs s ++ [job]) (LazyDB_clean s)).
  assert (Hjn : jobs sc !! n = Some job).
  { cbn. rewrite lookup_app_r by (unfold n; lia).
    unfold n. by rewrite Nat.sub_diag. }
  exists (move n job (Returned (MissingFailure t)) sc).
  split; [|split; [|done]].
  - eapply exec_step; [done|]. eapply exec_step; [done|].
    eapply exec_step; [|done]. apply step_cases.
    apply (Step_missing sc n job Hjn eq_refl).
    + cbn. apply lookup_empty.
    + cbn. by rewrite Hhook.
  - unfold job_result. cbn.
    rewrite list_lookup_insert_eq; [done|].
    rewrite length_app. cbn. unfold n. lia.
Qed.

(** X12. What [add] registers, [run] finds. After [add(task)], a call of
    [LazyDB.run(t)] for any target [t] of the task goes to [run_cached] of
    that task, whichever task owned [t] before; the objects are not
    touched by this. *)
Theorem add_then_run_reaches_task (s : State) (task : ref) (l : Lazy)
    (t : T) (a : list A) :
  heap s !! task = Some l → t ∈ targets l →
  ∃ s',
    exec [DbAdd task; Call t a; Advance (length (jobs s))] s =
      Some ([Tau; Tau; Tau], s')
    ∧ jobs s' !! length (jobs s) = Some (mkJob t a (AtLock task))
    ∧ heap s' = heap s ∧ world s' = world s.
Proof.
  intros Hl Ht.
  set (n := length (jobs s)).
  set (job := mkJob t a AtRun : Job).
  set (sa := set_db {| tasks := tasks (db s) ++ [task];
                       index := index_targets task (targets l) (index (db s));
                       on_missing := on_missing (db s) |} s).
  set (sc := set_jobs (jobs sa ++ [job]) sa).
  assert (Hjn : jobs sc !! n = Some job).
  { cbn. rewrite lookup_app_r by (unfold n; lia).
    unfold n. by rewrite Nat.sub_diag. }
  exists (move n job (AtLock task) sc).
  split; [|split; [|done]].
  - eapply exec_step; [|eapply exec_step; [done|]].
    + cbn. unfold LazyDB_add. by rewrite Hl.
    + eapply exec_step; [|done]. apply step_cases.
      apply (Step_found sc n job task Hjn eq_refl).
      cbn. by rewrite index_targets_lookup, decide_True.
  - cbn. rewrite list_lookup_insert_eq; [done|].
    rewrite length_app. cbn. unfold n. lia.
Qed.

(** X13. A missing dependency fails the dependent without running it. A
    registered task with an empty cell and a free lock whose only
    dependency is unregistered (and [on_missing] raises
    [MissingDependency] for it) resolves to
    [DependencyFailure(task, [MissingFailure(d)])]: this outcome is stored
    and returned, the lock is free again, and no body has run (every
    transition is silent, the world is as before). *)
Theorem missing_dependency_fails_dependent (s : State) (t d : T)
    (a : list A) (task : ref) (l : Lazy) :
  index (db s) !! t = Some task →
  heap s !! task = Some l → _lock l = false → _result l = None →
  dependencies l = [d] →
  index (db s) !! d = None →
  on_missing (db s) d = RaiseMissingDependency →
  ∃ s' l',
    exec [Call t a; Advance (length (jobs s)); Advance (length (jobs s));
          Advance (S (length (jobs s))); Advance (length (jobs s))] s =
      Some ([Tau; Tau; Tau; Tau; Tau], s')
    ∧ job_result (jobs s') (length (jobs s))
      = Some (DependencyFailure task [MissingFailure d])
    ∧ job_result (jobs s') (S (length (jobs s))) = Some (MissingFailure d)
    ∧ heap s' = <[task := l']> (heap s)
    ∧ _lock l' = false
    ∧ _result l' = Some (DependencyFailure task [MissingFailure d])
    ∧ world s' = world s ∧ db s' = db s.
Proof.
  intros Hidx Hl Hlk Hres Hdeps Hd Hhook.
  pose proof (lookup_lt_Some _ _ _ Hl) as Hlt.
  set (n := length (jobs s)).
  set (job := mkJob t a AtRun : Job).
  set (sc := set_jobs (jobs s ++ [job]) s).
  assert (Hlen : length (jobs sc) = S n).
  { cbn. rewrite length_app. cbn. unfold n. lia. }
  assert (Hjn : jobs sc !! n = Some job).
  { cbn. rewrite lookup_app_r by (unfold n; lia).
    unfold n. by rewrite Nat.sub_diag. }
  set (s1 := move n job (AtLock task) sc).
  set (job1 := set_pc (AtLock task) job).
  assert (Hj1 : jobs s1 !! n = Some job1).
  { cbn. apply list_lookup_insert_eq. cbn in Hlen. lia. }
  assert (Hlen1 : length (jobs s1) = S n).
  { cbn. rewrite length_insert. exact Hlen. }
  set (job2 := set_pc (AtGather task [S n]) job1).
  set (child := mkJob d [] AtRun : Job).
  set (s2 := set_jobs (<[n := job2]> (jobs s1) ++ [child])
               (set_heap (<[task := set_lock true l]> (heap s1)) s1)).
  assert (Hstep2 : step (Advance n) s1 = Some (Tau, s2)).
  { apply step_cases.
    pose proof (Step_acquire s1 n job1 task l Hj1 eq_refl Hl Hlk Hres)
      as HS.
    rewrite Hdeps, Hlen1 in HS. exact HS. }
  assert (Hj2 : jobs s2 !! n = Some job2).
  { cbn. apply lookup_app_l_Some, list_lookup_insert_eq.
    rewrite length_insert. cbn in Hlen. lia. }
  assert (Hc2 : jobs s2 !! S n = Some child).
  { cbn. rewrite lookup_app_r by (rewrite !length_insert; cbn in Hlen; lia).
    rewrite !length_insert. cbn in Hlen. rewrite Hlen.
    by rewrite Nat.sub_diag. }
  set (s3 := move (S n) child (Returned (MissingFailure d)) s2).
  assert (Hstep3 : step (Advance (S n)) s2 = Some (Tau, s3)).
  { apply step_cases. by apply (Step_missing s2 (S n) child Hc2 eq_refl). }
  assert (Hlen2 : length (jobs s2) = S (S n)).
  { cbn. rewrite length_app, !length_insert. cbn in *. lia. }
  assert (Hj3 : jobs s3 !! n = Some job2).
  { cbn -[s2]. rewrite list_lookup_insert_ne by lia. exact Hj2. }
  assert (Hc3 : jobs s3 !! S n
                = Some (set_pc (Returned (MissingFailure d)) child)).
  { cbn -[s2]. apply list_lookup_insert_eq. lia. }
  assert (Hl3 : heap s3 !! task = Some (set_lock true l)).
  { cbn. by apply list_lookup_insert_eq. }
  set (f := DependencyFailure task [MissingFailure d] : Result).
  exists (store_release n job2 task (set_lock true l) f s3),
    (set_lock false (set_result (Some f) (set_lock true l))).
  split; [|split; [|split; [|split; [|done]]]].
  - eapply exec_step; [done|].
    eapply exec_step; [apply step_cases; by apply Step_found|].
    eapply exec_step; [exact Hstep2|].
    eapply exec_step; [exact Hstep3|].
    eapply exec_step; [|done]. apply step_cases.
    apply (Step_deps_failed s3 n job2 task [S n] (set_lock true l)
             [MissingFailure d] f Hj3 eq_refl Hl3); [|done].
    cbn -[s3]. unfold job_result. by rewrite Hc3.
  - unfold job_result. cbn -[s3].
    rewrite list_lookup_insert_eq; [done|].
    cbn. rewrite length_insert, length_app, !length_insert. cbn in *. lia.
  - unfold job_result. cbn -[s3].
    rewrite list_lookup_insert_ne by lia. by rewrite Hc3.
  - cbn. by rewrite list_insert_insert_eq.
Qed.

(** ** The empty registry satisfies what the invariants above ask *)

Lemma locks_owned_init (hook : T → OnMissing) (w : W) :
  locks_owned (init hook w).
Proof. intros task l Hl. cbn in Hl. by rewrite lookup_nil in Hl. Qed.

Lemma cells_own_init (hook : T → OnMissing) (w : W) :
  cells_own (init hook w).
Proof. intros task l r Hl. cbn in Hl. by rewrite lookup_nil in Hl. Qed.

Lemma children_bare_init (hook : T → OnMissing) (w : W) :
  children_bare (init hook w).
Proof.
  intros j job task children c Hj. cbn in Hj. by rewrite lookup_nil in Hj.
Qed.

(** ** What [run_cached] returns is what the cell holds *)

(** X14. Whenever a coroutine returns from [run_cached] of a task, by
    whichever path (the cell was filled, a dependency failed, [run]
    returned or raised [TaskFailure]), the outcome it returns is the one
    the cell of the task holds at that moment, and the lock is free: no
    caller is handed an outcome that is not memoised. *)
Theorem returns_what_is_stored (s s' : State) (j : nat) (job : Job)
    (task : ref) (lab : Label) (r : Result) :
  jobs s !! j = Some job → pc job = AtLock task ∨ holds task job →
  step (Advance j) s = Some (lab, s') →
  (pc <$> jobs s' !! j) = Some (Returned r) →
  ∃ l', heap s' !! task = Some l' ∧ _result l' = Some r ∧ _lock l' = false.
Proof.
  intros Hj Hat HS%step_cases Hret.
  pose proof (lookup_lt_Some _ _ _ Hj) as Hlt.
  assert (Hpc : pc job = AtLock task
                ∨ (∃ ch, pc job = AtGather task ch)
                ∨ pc job = AtTaskRun task).
  { destruct Hat as [?|Hh]; [by left|right]. unfold holds in Hh.
    destruct (pc job); try done; subst; eauto. }
  clear Hat.
  inversion HS as
    [|j0 job0 t0 Hj0 Hpc0 Hidx
     |j0 job0 Hj0 Hpc0 Hidx Hhook
     |j0 job0 tg dp body Hj0 Hpc0 Hidx Hhook
     |j0 job0 t0 l0 r0 Hj0 Hpc0 Hl0 Hlk0 Hr0
     |j0 job0 t0 l0 Hj0 Hpc0 Hl0 Hlk0 Hr0
     |j0 job0 t0 ch0 l0 dr f Hj0 Hpc0 Hl0 Hm Hf
     |j0 job0 t0 ch0 l0 dr Hj0 Hpc0 Hl0 Hm Hf
     |j0 job0 t0 l0 out w r0 Hj0 Hpc0 Hl0 Hrun Hh
     |j0 job0 t0 l0 out w e Hj0 Hpc0 Hl0 Hrun Hh
     | | | | | |]; subst;
    assert (job0 = job) as -> by congruence;
    try (destruct Hpc as [?|[[? ?]|?]]; congruence).
  - (* the cell was filled *)
    assert (t0 = task) as ->
      by (destruct Hpc as [?|[[? ?]|?]]; congruence).
    cbn in Hret. rewrite list_lookup_insert_eq in Hret by done.
    cbn in Hret. injection Hret as <-. eauto.
  - (* the lock was taken: not returned *)
    cbn in Hret. rewrite lookup_app_l in Hret by (by rewrite length_insert).
    rewrite list_lookup_insert_eq in Hret by done. done.
  - (* a dependency failed *)
    assert (t0 = task) as ->
      by (destruct Hpc as [?|[[? ?]|?]]; congruence).
    cbn in Hret. rewrite list_lookup_insert_eq in Hret by done.
    cbn in Hret. injection Hret as <-.
    eexists.
    split; [cbn; apply list_lookup_insert_eq; by eapply lookup_lt_Some|].
    done.
  - (* the body starts: not returned *)
    cbn in Hret. rewrite list_lookup_insert_eq in Hret by done. done.
  - (* the body ended with an outcome *)
    assert (t0 = task) as ->
      by (destruct Hpc as [?|[[? ?]|?]]; congruence).
    cbn in Hret. rewrite list_lookup_insert_eq in Hret by done.
    cbn in Hret. injection Hret as <-.
    eexists.
    split; [cbn; apply list_lookup_insert_eq; by eapply lookup_lt_Some|].
    done.
  - (* the body raised: not returned *)
    cbn in Hret. rewrite list_lookup_insert_eq in Hret by done. done.
Qed.

End LoomFacts.

(** * The concrete graphs, checked by evaluation *)

(** The testable property of the diamond: D runs once, the counter of
    executed bodies is 4, every cell holds [Ok]. *)
Example diamond_runs_D_once :
  exec diamond_schedule diamond_ready
    = Some (labels_of diamond_schedule diamond_ready, diamond_done)
  ∧ count (is_start 3) (labels_of diamond_schedule diamond_ready) = 1
  ∧ world diamond_done = 4
  ∧ map _result (heap diamond_done)
    = [Some (Ok 0 10); Some (Ok 1 11); Some (Ok 2 12); Some (Ok 3 13)]
  ∧ job_result (jobs diamond_done) 0 = Some (Ok 0 10).
Proof.
  split; [apply exec_defined; vm_compute; eauto|]. by vm_compute.
Qed.

Lemma Inv_empty_registry : Inv empty_registry.
Proof. apply Inv_init. Qed.

Lemma Inv_diamond_ready : Inv diamond_ready.
Proof. apply Inv_state_of, Inv_empty_registry. Qed.

Lemma Inv_diamond_done : Inv diamond_done.
Proof. apply Inv_state_of, Inv_diamond_ready. Qed.

(** D has been resolved; a later caller of D gets the stored outcome. *)
Lemma memoization_witness :
  Inv diamond_done
  ∧ heap diamond_done !! 3 = Some D_resolved
  ∧ _result D_resolved = Some (Ok 3 13)
  ∧ ∃ s',
      exec [Call 3 []; Advance 5] diamond_done = Some ([Tau; Tau], s')
      ∧ (∃ l', heap s' !! 3 = Some l' ∧ _result l' = Some (Ok 3 13))
      ∧ step (Advance 5) s'
        = Some (Tau, move 5 (mkJob 3 [] (AtLock 3)) (Returned (Ok 3 13)) s').
Proof.
  assert (H1 : heap diamond_done !! 3 = Some D_resolved)
    by (vm_compute; reflexivity).
  assert (H2 : _result D_resolved = Some (Ok 3 13)) by reflexivity.
  split; [exact Inv_diamond_done|split; [exact H1|split; [exact H2|]]].
  destruct (memoization diamond_done 3 D_resolved (Ok 3 13)
              Inv_diamond_done H1 H2) as [Hkeep _].
  exists (state_of [Call 3 []; Advance 5] diamond_done).
  assert (He : exec [Call 3 []; Advance 5] diamond_done
               = Some ([Tau; Tau],
                       state_of [Call 3 []; Advance 5] diamond_done))
    by (vm_compute; reflexivity).
  assert (Hc : Forall (λ ev : DEvent, clears 3 ev = false)
                 [Call 3 []; Advance 5])
    by (repeat constructor).
  destruct (Hkeep _ _ _ He Hc) as (Hcell & _ & Hcall).
  split; [exact He|split; [exact Hcell|]].
  apply Hcall; vm_compute; reflexivity.
Defined.

(** B awaits [gather] of the D that failed. *)
Lemma dependency_failure_branch_witness :
  jobs broken_mid !! 1 = Some B_gathering
  ∧ pc B_gathering = AtGather 1 [3]
  ∧ heap broken_mid !! 1 = Some B_locked
  ∧ mapM (job_result (jobs broken_mid)) [3] = Some [TaskFailure 3 "x"]
  ∧ (∃ f, f ∈ [TaskFailure (R:=nat) 3 "x"] ∧ is_Failure f)
  ∧ ∃ s',
      step (Advance 1) broken_mid = Some (Tau, s')
      ∧ job_result (jobs s') 1
        = Some (DependencyFailure 1 [TaskFailure 3 "x"])
      ∧ world s' = world broken_mid.
Proof.
  assert (H1 : jobs broken_mid !! 1 = Some B_gathering)
    by (vm_compute; reflexivity).
  assert (H2 : heap broken_mid !! 1 = Some B_locked)
    by (vm_compute; reflexivity).
  assert (H3 : mapM (job_result (jobs broken_mid)) [3]
               = Some [TaskFailure 3 "x"])
    by (vm_compute; reflexivity).
  assert (H4 : ∃ f, f ∈ [TaskFailure (R:=nat) 3 "x"] ∧ is_Failure f).
  { exists (TaskFailure 3 "x"). split; [apply list_elem_of_here|exact I]. }
  repeat (split; [done|]).
  destruct (dependency_failure_branch broken_mid 1 B_gathering 1 [3]
              B_locked [TaskFailure 3 "x"] H1 eq_refl H2 H3 H4)
    as (failures & s' & Hstep & -> & _ & _ & Hjob & _ & Hworld).
  exists s'. split; [exact Hstep|split; [|exact Hworld]].
  unfold job_result. rewrite Hjob. reflexivity.
Defined.

(** The chain: the dependency of task 1 is resolved, so its body starts;
    the body raises, the coroutine ends as raised with an empty cell and a
    free lock, and the caller that gathers it ends as raised too. *)
Lemma run_branch_witness :
  jobs chain_mid !! 1 = Some chain_middle
  ∧ pc chain_middle = AtGather 1 [2]
  ∧ heap chain_mid !! 1 = Some chain_middle_locked
  ∧ mapM (job_result (jobs chain_mid)) [2] = Some [Ok 2 12]
  ∧ (∀ r, r ∈ [Ok (T:=nat) 2 12] → Result_bool r = true)
  ∧ ∃ s1 s2 s3,
      step (Advance 1) chain_mid = Some (RunStart 1, s1)
      ∧ jobs s1 !! 1 = Some (set_pc (AtTaskRun 1) chain_middle)
      ∧ step (Advance 1) s1 = Some (RunEnd 1 (RaiseOther 7), s2)
      ∧ jobs s2 !! 1 = Some (mkJob 1 [] (Raised 7))
      ∧ (_result <$> heap s2 !! 1) = Some None
      ∧ (_lock <$> heap s2 !! 1) = Some false
      ∧ world s2 = 2
      ∧ step (Propagate 0 1) s2 = Some (Tau, s3)
      ∧ jobs s3 !! 0 = Some (mkJob 0 [] (Raised 7))
      ∧ (_result <$> heap s3 !! 0) = Some None
      ∧ (_lock <$> heap s3 !! 0) = Some false.
Proof.
  assert (H1 : jobs chain_mid !! 1 = Some chain_middle)
    by (vm_compute; reflexivity).
  assert (H2 : heap chain_mid !! 1 = Some chain_middle_locked)
    by (vm_compute; reflexivity).
  assert (H3 : mapM (job_result (jobs chain_mid)) [2] = Some [Ok 2 12])
    by (vm_compute; reflexivity).
  assert (H4 : ∀ r, r ∈ [Ok (T:=nat) 2 12] → Result_bool r = true).
  { intros r Hr. apply list_elem_of_singleton in Hr. subst r. reflexivity. }
  repeat (split; [done|]).
  destruct (run_branch chain_mid 1 chain_middle 1 [2] chain_middle_locked
              [Ok 2 12] H1 eq_refl H2 H3 H4)
    as ((s1 & Hstart & Hj1 & Hothers1 & Hheap1 & Hworld1 & _) & Hend & Hup).
  assert (Hl1 : heap s1 !! 1 = Some chain_middle_locked)
    by (by rewrite Hheap1).
  assert (Hrun : run chain_middle_locked
                   (jargs (set_pc (AtTaskRun 1) chain_middle)) (world s1)
                 = (RaiseOther 7, 2))
    by (rewrite Hworld1; vm_compute; reflexivity).
  destruct (Hend s1 _ _ (RaiseOther 7) 2 Hj1 eq_refl Hl1 Hrun)
    as (s2 & Hstep2 & Hworld2 & Hlock2 & [Hj2 Hcell2] & Hothers2 & Hheap2
        & _).
  assert (Hraised : job_raised (jobs s2) 1 = Some 7)
    by (unfold job_raised; by rewrite Hj2).
  assert (Hp : jobs s2 !! 0 = Some (mkJob 0 [] (AtGather 0 [1]))).
  { rewrite Hothers2, Hothers1 by done. vm_compute. reflexivity. }
  assert (Hpl : heap s2 !! 0 = Some (mkLazy [0] [1] true None (returns 10))).
  { rewrite Hheap2, Hheap1 by done. vm_compute. reflexivity. }
  destruct (Hup s2 7 0 _ 0 [1] _ Hraised Hp eq_refl
              ltac:(apply list_elem_of_here) Hpl)
    as (s3 & Hstep3 & Hj3 & Hlock3 & Hcell3 & _).
  exists s1, s2, s3.
  repeat (split; [done|]). done.
Defined.

(** The broken diamond to the end: D resolves to its [TaskFailure], B and C
    to a [DependencyFailure] holding it, A to one holding theirs; only the
    body of D ran. *)
Example broken_diamond_outcomes :
  map _result (heap broken_done)
  = [Some (DependencyFailure 0
             [DependencyFailure 1 [TaskFailure 3 "x"];
              DependencyFailure 2 [TaskFailure 3 "x"]]);
     Some (DependencyFailure 1 [TaskFailure 3 "x"]);
     Some (DependencyFailure 2 [TaskFailure 3 "x"]);
     Some (TaskFailure 3 "x")]
  ∧ world broken_done = 1.
Proof.
  assert (Hlabs : length (labels_of broken_schedule
                            (state_of broken_setup empty_registry)) = 16)
    by (by vm_compute).
  by vm_compute.
Qed.

(** An identifier nobody registered. *)
Lemma missing_identifier_policy_witness :
  jobs asked_5 !! 0 = Some run_5
  ∧ pc run_5 = AtRun
  ∧ index (db asked_5) !! jt run_5 = None
  ∧ step (Advance 0) asked_5
    = Some (Tau, move 0 run_5 (Returned (MissingFailure 5)) asked_5).
Proof.
  assert (H1 : jobs asked_5 !! 0 = Some run_5) by (vm_compute; reflexivity).
  assert (H3 : index (db asked_5) !! jt run_5 = None)
    by (vm_compute; reflexivity).
  repeat (split; [done|]).
  exact (proj1 (missing_identifier_policy asked_5 0 run_5 H1 eq_refl H3)
           eq_refl).
Defined.

(** [clean()], then a previously valid identifier: [MissingFailure]. *)
Example clean_then_missing :
  option_map (λ p, job_result (jobs (snd p)) 5)
    (exec [DbClean; Call 0 []; Advance 5] diamond_done)
  = Some (Some (MissingFailure 0)).
Proof. by vm_compute. Qed.

(** The second [add] takes target 1 over. *)
Lemma add_registers_witness :
  heap two_tasks !! 0 = Some (Lazy_init [0; 1] [] (returns 1))
  ∧ ∃ s' s'',
      LazyDB_add 0 two_tasks = Some s'
      ∧ tasks (db s') = tasks (db two_tasks) ++ [0]
      ∧ index (db s') !! 1 = Some 0
      ∧ LazyDB_add 1 s' = Some s''
      ∧ index (db s'') !! 1 = Some 1.
Proof.
  assert (H1 : heap two_tasks !! 0 = Some (Lazy_init [0; 1] [] (returns 1)))
    by (vm_compute; reflexivity).
  assert (H2 : heap two_tasks !! 1 = Some (Lazy_init [1; 2] [] (returns 2)))
    by (vm_compute; reflexivity).
  split; [exact H1|].
  destruct (add_registers two_tasks 0 _ H1)
    as (s' & Hadd & Htasks & Hin & _ & _ & _ & _ & Hover).
  assert (Ht0 : 1 ∈ targets (Lazy_init [0; 1] [] (returns 1)))
    by (apply list_elem_of_further, list_elem_of_here).
  assert (Ht1 : 1 ∈ targets (Lazy_init [1; 2] [] (returns 2)))
    by apply list_elem_of_here.
  destruct (Hover 1 _ 1 H2 Ht0 Ht1) as (s'' & Hadd2 & Hidx2).
  exists s', s''. repeat (split; [done|]). split; [by apply Hin|done].
Defined.

Lemma Inv_crash_running : Inv crash_running.
Proof. apply Inv_state_of, Inv_empty_registry. Qed.


Lemma Inv_leaf_asked : Inv leaf_asked.
Proof. apply Inv_state_of, Inv_init. Qed.

(** Two calls for the same unregistered identifier: two objects, two
    executions of the body. *)
Lemma synthesized_task_not_registered_witness :
  Inv leaf_asked
  ∧ jobs leaf_asked !! 0 = Some leaf_job
  ∧ pc leaf_job = AtRun
  ∧ index (db leaf_asked) !! jt leaf_job = None
  ∧ on_missing (db leaf_asked) (jt leaf_job) = ReturnTask [5] [] (returns 5)
  ∧ ∃ s' s2,
      step (Advance 0) leaf_asked = Some (Tau, s')
      ∧ db s' = db leaf_asked
      ∧ exec ([Advance 0; Advance 0; Advance 0; Advance 0]
              ++ [Call 5 [9]]
              ++ [Advance 1; Advance 1; Advance 1; Advance 1]) leaf_asked
        = Some ([Tau; Tau; RunStart 0; RunEnd 0 (Return 5); Tau;
                 Tau; Tau; RunStart 1; RunEnd 1 (Return 5)], s2)
      ∧ world s2 = 2
      ∧ db s2 = db leaf_asked.
Proof.
  assert (H1 : jobs leaf_asked !! 0 = Some leaf_job)
    by (vm_compute; reflexivity).
  assert (H3 : index (db leaf_asked) !! jt leaf_job = None)
    by (vm_compute; reflexivity).
  assert (H4 : on_missing (db leaf_asked) (jt leaf_job)
               = ReturnTask [5] [] (returns 5))
    by (vm_compute; reflexivity).
  split; [exact Inv_leaf_asked|]. repeat (split; [done|]).
  destruct (synthesized_task_not_registered leaf_asked 0 leaf_job [5] []
              (returns 5) Inv_leaf_asked H1 eq_refl H3 H4)
    as (s' & task & Hstep & _ & Hnew & _ & Hdb & _ & _ & _ & _ & Htwice).
  assert (Htask : task = 0).
  { assert (Hc : step (Advance 0) leaf_asked
                 = Some (Tau, state_of [Advance 0] leaf_asked))
      by (vm_compute; reflexivity).
    rewrite Hc in Hstep. injection Hstep as <-.
    apply lookup_lt_Some in Hnew. vm_compute in Hnew. lia. }
  subst task.
  destruct (Htwice eq_refl [9] (Return 5) 1 (Return 5) 2 eq_refl eq_refl)
    as (s2 & Hexec & Hw & Hdb2).
  exists s', s2. split; [exact Hstep|]. split; [exact Hdb|].
  split; [exact Hexec|]. split; [exact Hw|exact Hdb2].
Defined.

(** C5 as stated fails. Two callers of a task whose [run] raises
    something that is not a [TaskFailure]: both execute [run], the second
    finds the cell empty and the lock free, and nothing was reset in
    between. *)
Lemma at_most_once_fails : ¬ at_most_once empty_registry.
Proof.
  intros Hclaim.
  assert (He : exec crash_twice empty_registry
               = Some (labels_of crash_twice empty_registry,
                       state_of crash_twice empty_registry))
    by (apply exec_defined; vm_compute; eauto).
  assert (Hc : Forall (λ ev : DEvent, clears 0 ev = false) crash_twice)
    by (repeat constructor).
  pose proof (Hclaim _ _ _ 0 He Hc) as Hle.
  vm_compute in Hle. lia.
Qed.

Example crash_twice_labels :
  labels_of crash_twice empty_registry
  = [Tau; Tau; Tau; Tau; Tau; Tau;
     RunStart 0; RunEnd 0 (RaiseOther 7);
     Tau; Tau; RunStart 0; RunEnd 0 (RaiseOther 7)]
  ∧ world (state_of crash_twice empty_registry) = 2.
Proof. by vm_compute. Qed.

(** The diamond, from the empty registry: D runs once. *)
Lemma one_run_at_a_time_witness :
  Inv empty_registry
  ∧ exec (diamond_setup ++ diamond_schedule) empty_registry
    = Some (labels_of (diamond_setup ++ diamond_schedule) empty_registry,
            state_of (diamond_setup ++ diamond_schedule) empty_registry)
  ∧ exclusive (state_of (diamond_setup ++ diamond_schedule) empty_registry)
  ∧ count (is_start 3)
      (labels_of (diamond_setup ++ diamond_schedule) empty_registry) ≤ 1.
Proof.
  assert (He : exec (diamond_setup ++ diamond_schedule) empty_registry
               = Some (labels_of (diamond_setup ++ diamond_schedule)
                         empty_registry,
                       state_of (diamond_setup ++ diamond_schedule)
                         empty_registry))
    by (apply exec_defined; vm_compute; eauto).
  split; [exact Inv_empty_registry|split; [exact He|]].
  destruct (one_run_at_a_time empty_registry _ _ _ Inv_empty_registry He)
    as (Hexcl & _ & Hcount).
  split; [exact Hexcl|].
  assert (Hc : Forall (λ ev : DEvent, clears 3 ev = false)
                 (diamond_setup ++ diamond_schedule))
    by (repeat constructor).
  destruct (Hcount 3 Hc) as (_ & Hone & _).
  apply Hone. by vm_compute.
Defined.

(** [reset()], then resolving again: [run] is invoked again. *)
Example reset_then_rerun :
  labels_of [TaskReset 3; Call 3 []; Advance 5; Advance 5; Advance 5;
             Advance 5] diamond_done
  = [Tau; Tau; Tau; Tau; RunStart 3; RunEnd 3 (Return 13)]
  ∧ world (state_of [TaskReset 3; Call 3 []; Advance 5; Advance 5;
                     Advance 5; Advance 5] diamond_done) = 5.
Proof. by vm_compute. Qed.

(** ** The further properties on the concrete graphs *)

(** Resolving the diamond leaves the registry as it was. *)
Lemma registry_edited_only_by_add_clean_witness :
  exec diamond_schedule diamond_ready
  = Some (labels_of diamond_schedule diamond_ready, diamond_done)
  ∧ db diamond_done = db diamond_ready.
Proof.
  assert (H1 : exec diamond_schedule diamond_ready
               = Some (labels_of diamond_schedule diamond_ready,
                       diamond_done))
    by (apply exec_defined; vm_compute; eauto).
  split; [exact H1|].
  apply (registry_edited_only_by_add_clean _ _ _ _ H1).
  repeat constructor.
Defined.

(** Resetting the crashing task while its body runs. *)
Lemma reset_in_flight_is_noop_witness :
  Inv crash_running
  ∧ jobs crash_running !! 0 = Some crash_job
  ∧ holds 0 crash_job
  ∧ step (TaskReset 0) crash_running = Some (Tau, crash_running).
Proof.
  assert (H1 : jobs crash_running !! 0 = Some crash_job)
    by (vm_compute; reflexivity).
  assert (H2 : holds 0 crash_job) by reflexivity.
  split; [exact Inv_crash_running|split; [exact H1|split; [exact H2|]]].
  exact (proj1 (reset_in_flight_is_noop crash_running 0 crash_job 0
                  Inv_crash_running H1 H2)).
Defined.

(** Both callers of the crashing task have raised: its lock is free. *)
Lemma no_lock_left_held_witness :
  locks_owned empty_registry
  ∧ exec crash_twice empty_registry
    = Some (labels_of crash_twice empty_registry,
            state_of crash_twice empty_registry)
  ∧ ∀ task l,
      heap (state_of crash_twice empty_registry) !! task = Some l →
      _lock l = false.
Proof.
  assert (H1 : locks_owned empty_registry) by apply locks_owned_init.
  assert (H2 : exec crash_twice empty_registry
               = Some (labels_of crash_twice empty_registry,
                       state_of crash_twice empty_registry))
    by (apply exec_defined; vm_compute; eauto).
  split; [exact H1|split; [exact H2|]].
  apply (proj2 (no_lock_left_held _ _ _ _ H1 H2)).
  vm_compute. repeat constructor.
Defined.

(** The broken diamond: every cell holds an outcome of its own task. *)
Lemma cells_hold_own_outcomes_witness :
  cells_own empty_registry
  ∧ exec (broken_setup ++ broken_schedule) empty_registry
    = Some (labels_of (broken_setup ++ broken_schedule) empty_registry,
            state_of (broken_setup ++ broken_schedule) empty_registry)
  ∧ cells_own (state_of (broken_setup ++ broken_schedule) empty_registry).
Proof.
  assert (H1 : cells_own empty_registry) by apply cells_own_init.
  assert (H2 : exec (broken_setup ++ broken_schedule) empty_registry
               = Some (labels_of (broken_setup ++ broken_schedule)
                         empty_registry,
                       state_of (broken_setup ++ broken_schedule)
                         empty_registry))
    by (apply exec_defined; vm_compute; eauto).
  split; [exact H1|split; [exact H2|]].
  exact (proj1 (cells_hold_own_outcomes _ _ _ _ H1 H2)).
Defined.

(** The caller passed two arguments; the body of the dependency is given
    none. *)
Lemma dependencies_run_without_args_witness :
  children_bare empty_registry
  ∧ exec (args_setup ++ args_schedule) empty_registry
    = Some (labels_of (args_setup ++ args_schedule) empty_registry, args_mid)
  ∧ ∃ l, heap args_mid !! 1 = Some l
      ∧ run l [] (world args_mid)
        = (Return 0, world (state_of [Advance 1] args_mid)).
Proof.
  assert (H1 : children_bare empty_registry) by apply children_bare_init.
  assert (H2 : exec (args_setup ++ args_schedule) empty_registry
               = Some (labels_of (args_setup ++ args_schedule)
                         empty_registry, args_mid))
    by (apply exec_defined; vm_compute; eauto).
  split; [exact H1|split; [exact H2|]].
  apply (proj2 (dependencies_run_without_args _ _ _ _ H1 H2)
           0 (mkJob 0 [7; 8] (AtGather 0 [1])) 0 [1] 1 1).
  - vm_compute; reflexivity.
  - reflexivity.
  - apply list_elem_of_here.
  - vm_compute; reflexivity.
Defined.

(** To the end: the dependency counted no argument, the requested task
    two. *)
Example args_outcomes :
  map _result
    (heap (state_of [Advance 1; Advance 0; Advance 0] args_mid))
  = [Some (Ok 0 2); Some (Ok 1 0)].
Proof. by vm_compute. Qed.

Lemma Inv_selfdep_stuck : Inv selfdep_stuck.
Proof. apply Inv_state_of, Inv_empty_registry. Qed.

(** The self-dependent task: a reset and a further caller later, nothing
    has moved. *)
Lemma self_dependency_deadlocks_witness :
  Inv selfdep_stuck
  ∧ waits_on_itself 0 0 selfdep_stuck
  ∧ exec [TaskReset 0; Call 0 []; Advance 2] selfdep_stuck
    = Some ([Tau; Tau; Tau],
            state_of [TaskReset 0; Call 0 []; Advance 2] selfdep_stuck)
  ∧ step (Advance 0)
      (state_of [TaskReset 0; Call 0 []; Advance 2] selfdep_stuck) = None
  ∧ step (Advance 2)
      (state_of [TaskReset 0; Call 0 []; Advance 2] selfdep_stuck) = None.
Proof.
  assert (H1 : waits_on_itself 0 0 selfdep_stuck).
  { exists (mkJob 0 [] (AtGather 0 [1])), [1].
    split; [vm_compute; reflexivity|]. split; [reflexivity|].
    split; [discriminate|].
    intros c Hc. apply list_elem_of_singleton in Hc. subst c.
    exists (mkJob 0 [] (AtLock 0)). split; [vm_compute|]; reflexivity. }
  assert (H2 : exec [TaskReset 0; Call 0 []; Advance 2] selfdep_stuck
               = Some ([Tau; Tau; Tau],
                       state_of [TaskReset 0; Call 0 []; Advance 2]
                         selfdep_stuck))
    by (vm_compute; reflexivity).
  split; [exact Inv_selfdep_stuck|split; [exact H1|split; [exact H2|]]].
  destruct (self_dependency_deadlocks _ _ _ _ 0 0 Inv_selfdep_stuck H1 H2)
    as (_ & _ & _ & Hj & _ & Hc).
  split; [exact Hj|].
  apply (Hc 2 (mkJob 0 [] (AtLock 0))); vm_compute; reflexivity.
Defined.

(** One caller of the registered leaf. *)
Lemma leaf_resolution_witness :
  index (db leaf_ready) !! 0 = Some 0
  ∧ heap leaf_ready !! 0 = Some (Lazy_init [0] [] (returns 1))
  ∧ _lock (Lazy_init [0] [] (returns 1)) = false
  ∧ _result (Lazy_init [0] [] (returns 1)) = None
  ∧ dependencies (Lazy_init [0] [] (returns 1)) = []
  ∧ run (Lazy_init [0] [] (returns 1)) [] (world leaf_ready) = (Return 1, 1)
  ∧ ∃ s',
      exec [Call 0 []; Advance 0; Advance 0; Advance 0; Advance 0] leaf_ready
      = Some ([Tau; Tau; Tau; RunStart 0; RunEnd 0 (Return 1)], s')
      ∧ world s' = 1
      ∧ (pc <$> jobs s' !! 0) = Some (Returned (Ok 0 1)).
Proof.
  assert (H1 : index (db leaf_ready) !! 0 = Some 0)
    by (vm_compute; reflexivity).
  assert (H2 : heap leaf_ready !! 0 = Some (Lazy_init [0] [] (returns 1)))
    by (vm_compute; reflexivity).
  repeat (split; [done|]).
  destruct (leaf_resolution leaf_ready 0 [] 0 _ (Return 1) 1
              H1 H2 eq_refl eq_refl eq_refl eq_refl)
    as (s' & l' & Hexec & _ & Hw & _ & _ & _ & Hpc).
  exists s'. split; [exact Hexec|split; [exact Hw|exact Hpc]].
Defined.

(** D of the resolved diamond is reset and asked for again. *)
Lemma reset_then_resolve_runs_again_witness :
  (TaskReset (T:=nat) (R:=nat) (A:=nat) (E:=nat) (W:=nat) 3 = TaskReset 3
   ∨ (TaskReset (T:=nat) (R:=nat) (A:=nat) (E:=nat) (W:=nat) 3 = DbReset
      ∧ 3 ∈ tasks (db diamond_done)))
  ∧ index (db diamond_done) !! 3 = Some 3
  ∧ heap diamond_done !! 3 = Some D_resolved
  ∧ _lock D_resolved = false
  ∧ dependencies D_resolved = []
  ∧ run D_resolved [] (world diamond_done) = (Return 13, 5)
  ∧ ∃ s' l',
      exec [TaskReset 3; Call 3 []; Advance 5; Advance 5; Advance 5;
            Advance 5] diamond_done
      = Some ([Tau; Tau; Tau; Tau; RunStart 3; RunEnd 3 (Return 13)], s')
      ∧ world s' = 5
      ∧ heap s' !! 3 = Some l'
      ∧ _result l' = Some (Ok 3 13).
Proof.
  assert (H0 : TaskReset (T:=nat) (R:=nat) (A:=nat) (E:=nat) (W:=nat) 3
               = TaskReset 3
               ∨ (TaskReset (T:=nat) (R:=nat) (A:=nat) (E:=nat) (W:=nat) 3
                  = DbReset ∧ 3 ∈ tasks (db diamond_done)))
    by (left; reflexivity).
  assert (H1 : index (db diamond_done) !! 3 = Some 3)
    by (vm_compute; reflexivity).
  assert (H2 : heap diamond_done !! 3 = Some D_resolved)
    by (vm_compute; reflexivity).
  assert (H5 : run D_resolved [] (world diamond_done) = (Return 13, 5))
    by (vm_compute; reflexivity).
  repeat (split; [done|]).
  destruct (reset_then_resolve_runs_again diamond_done (TaskReset 3) 3 []
              3 D_resolved (Return 13) 5 H0 H1 H2 eq_refl eq_refl H5)
    as (s' & l' & Hexec & Hw & Hl' & _ & Hres).
  assert (Hlen : length (jobs diamond_done) = 5) by (vm_compute; reflexivity).
  rewrite Hlen in Hexec.
  exists s', l'. split; [exact Hexec|split; [exact Hw|split; [exact Hl'|]]].
  exact Hres.
Defined.

(** The resolved diamond is cleaned: A is missing, the cells are kept. *)
Lemma clean_then_every_identifier_is_missing_witness :
  on_missing (db diamond_done) = on_missing_default
  ∧ ∃ s',
      exec [DbClean; Call 0 []; Advance 5] diamond_done
      = Some ([Tau; Tau; Tau], s')
      ∧ job_result (jobs s') 5 = Some (MissingFailure 0)
      ∧ heap s' = heap diamond_done.
Proof.
  assert (H1 : on_missing (db diamond_done) = on_missing_default)
    by (vm_compute; reflexivity).
  split; [exact H1|].
  destruct (clean_then_every_identifier_is_missing diamond_done 0 [] H1)
    as (s' & Hexec & Hres & Hheap & _).
  assert (Hlen : length (jobs diamond_done) = 5) by (vm_compute; reflexivity).
  rewrite Hlen in Hexec, Hres.
  exists s'. split; [exact Hexec|split; [exact Hres|exact Hheap]].
Defined.

(** The second of the two tasks is added; a caller asks for the shared
    target. *)
Lemma add_then_run_reaches_task_witness :
  heap two_tasks !! 1 = Some (Lazy_init [1; 2] [] (returns 2))
  ∧ 1 ∈ targets (Lazy_init (R:=nat) (A:=nat) (E:=nat) (W:=nat) [1; 2] []
                   (returns 2))
  ∧ ∃ s',
      exec [DbAdd 1; Call 1 []; Advance 0] two_tasks
      = Some ([Tau; Tau; Tau], s')
      ∧ jobs s' !! 0 = Some (mkJob 1 [] (AtLock 1)).
Proof.
  assert (H1 : heap two_tasks !! 1 = Some (Lazy_init [1; 2] [] (returns 2)))
    by (vm_compute; reflexivity).
  assert (H2 : 1 ∈ targets (Lazy_init (R:=nat) (A:=nat) (E:=nat) (W:=nat)
                              [1; 2] [] (returns 2)))
    by apply list_elem_of_here.
  split; [exact H1|split; [exact H2|]].
  destruct (add_then_run_reaches_task two_tasks 1 _ 1 [] H1 H2)
    as (s' & Hexec & Hjob & _).
  assert (Hlen : length (jobs two_tasks) = 0) by (vm_compute; reflexivity).
  rewrite Hlen in Hexec, Hjob.
  exists s'. split; [exact Hexec|exact Hjob].
Defined.

(** The task whose dependency 9 is unregistered. *)
Lemma missing_dependency_fails_dependent_witness :
  index (db orphan_ready) !! 0 = Some 0
  ∧ heap orphan_ready !! 0 = Some (Lazy_init [0] [9] (returns 1))
  ∧ _lock (Lazy_init [0] [9] (returns 1)) = false
  ∧ _result (Lazy_init [0] [9] (returns 1)) = None
  ∧ dependencies (Lazy_init [0] [9] (returns 1)) = [9]
  ∧ index (db orphan_ready) !! 9 = None
  ∧ on_missing (db orphan_ready) 9 = RaiseMissingDependency
  ∧ ∃ s',
      exec [Call 0 []; Advance 0; Advance 0; Advance 1; Advance 0]
        orphan_ready
      = Some ([Tau; Tau; Tau; Tau; Tau], s')
      ∧ job_result (jobs s') 0
        = Some (DependencyFailure 0 [MissingFailure 9])
      ∧ world s' = 0.
Proof.
  assert (H1 : index (db orphan_ready) !! 0 = Some 0)
    by (vm_compute; reflexivity).
  assert (H2 : heap orphan_ready !! 0 = Some (Lazy_init [0] [9] (returns 1)))
    by (vm_compute; reflexivity).
  assert (H6 : index (db orphan_ready) !! 9 = None)
    by (vm_compute; reflexivity).
  assert (H7 : on_missing (db orphan_ready) 9 = RaiseMissingDependency)
    by (vm_compute; reflexivity).
  repeat (split; [done|]).
  destruct (missing_dependency_fails_dependent orphan_ready 0 9 [] 0 _
              H1 H2 eq_refl eq_refl eq_refl H6 H7)
    as (s' & l' & Hexec & Hres & _ & _ & _ & _ & Hw & _).
  assert (Hlen : length (jobs orphan_ready) = 0) by (vm_compute; reflexivity).
  rewrite Hlen in Hexec, Hres.
  exists s'. split; [exact Hexec|split; [exact Hres|]].
  rewrite Hw. vm_compute. reflexivity.
Defined.

(** The second caller of D returns what the cell of D holds. *)
Lemma returns_what_is_stored_witness :
  jobs D_asked_again !! 4 = Some (mkJob 3 [] (AtLock 3))
  ∧ (pc (mkJob (T:=nat) (R:=nat) (A:=nat) (E:=nat) 3 [] (AtLock 3))
     = AtLock 3
     ∨ holds 3 (mkJob (T:=nat) (R:=nat) (A:=nat) (E:=nat) 3 [] (AtLock 3)))
  ∧ step (Advance 4) D_asked_again = Some (Tau, diamond_mid)
  ∧ (pc <$> jobs diamond_mid !! 4) = Some (Returned (Ok 3 13))
  ∧ ∃ l', heap diamond_mid !! 3 = Some l'
      ∧ _result l' = Some (Ok 3 13) ∧ _lock l' = false.
Proof.
  assert (H1 : jobs D_asked_again !! 4 = Some (mkJob 3 [] (AtLock 3)))
    by (vm_compute; reflexivity).
  assert (H2 : pc (mkJob (T:=nat) (R:=nat) (A:=nat) (E:=nat) 3 []
                     (AtLock 3)) = AtLock 3
               ∨ holds 3 (mkJob (T:=nat) (R:=nat) (A:=nat) (E:=nat) 3 []
                            (AtLock 3)))
    by (left; reflexivity).
  assert (H3 : step (Advance 4) D_asked_again = Some (Tau, diamond_mid))
    by (vm_compute; reflexivity).
  assert (H4 : (pc <$> jobs diamond_mid !! 4) = Some (Returned (Ok 3 13)))
    by (vm_compute; reflexivity).
  repeat (split; [done|]).
  exact (returns_what_is_stored _ _ 4 _ 3 _ _ H1 H2 H3 H4).
Defined.
